(** * djem: object-level permissions (src/djem/auth.py)

    A shallow embedding of [OLPMixin] and [ObjectPermissionsBackend]:
    Python values with their truthiness, the per-instance [_olp_cache]
    dictionary as a [gmap], exceptions as a result type, and the mutable
    user instance threaded through a small state-and-exception monad.
    A call trace records every model-level lookup and every invocation of
    an access method, so that "is (not) invoked" can be stated. *)

From Stdlib Require Import Ascii String.
From stdpp Require Import gmap strings list fin_maps pretty.

Open Scope string_scope.
Open Scope list_scope.
Open Scope nat_scope.

(** ** Python values *)

Inductive pyval : Type :=
  | VNone
  | VBool (b : bool)
  | VInt (z : Z)
  | VStr (s : string).

#[global] Instance pyval_eq_dec : EqDecision pyval.
Proof. solve_decision. Defined.

(** [bool(v)] *)
Definition truthy (v : pyval) : bool :=
  match v with
  | VNone => false
  | VBool b => b
  | VInt z => negb (Z.eqb z 0)
  | VStr s => negb (String.eqb s "")
  end.

(** [v is None] *)
Definition is_None (v : pyval) : bool :=
  match v with VNone => true | _ => false end.

(** [a or b]: the first operand when it is truthy, the second otherwise. *)
Definition py_or (a b : pyval) : pyval := if truthy a then a else b.

(** [str(v)], which is what [str.format] inserts for a plain [{n}] field. *)
Definition py_str (v : pyval) : string :=
  match v with
  | VNone => "None"
  | VBool true => "True"
  | VBool false => "False"
  | VInt z => pretty z
  | VStr s => s
  end.

(** [s.split(c)] for a one-character separator: never the empty list. *)
Fixpoint split_on (c : ascii) (s : string) : list string :=
  match s with
  | EmptyString => [EmptyString]
  | String a s' =>
      if Ascii.eqb a c then EmptyString :: split_on c s'
      else match split_on c s' with
           | hd :: tl => String a hd :: tl
           | [] => [String a EmptyString]
           end
  end.

(** ** Exceptions and results *)

Inductive exn : Type :=
  | PermissionDenied
  | AttributeError (name : string)
  | KeyError (key : string)
  | OtherError (msg : string).

Inductive result (A : Type) : Type :=
  | Ret (a : A)
  | Raise (e : exn).
Arguments Ret {A} a.
Arguments Raise {A} e.

(** ** Principals and entities *)

Record User : Type := mkUser {
  user_pk : Z;
  is_active : bool;
  is_superuser : bool;
  is_anonymous : bool;
  groups : list Z;
}.

(** The two sources, [from_name] in the code. *)
Inductive source : Type := SrcUser | SrcGroup.

#[global] Instance source_eq_dec : EqDecision source.
Proof. solve_decision. Defined.

Definition from_name_str (s : source) : string :=
  match s with SrcUser => "user" | SrcGroup => "group" end.

(** What an access method is called with: the user object, or
    [user_obj.groups.all()]. *)
Inductive arg : Type :=
  | ArgUser (u : User)
  | ArgGroups (gs : list Z).

(** An access method of an entity: it returns a value or raises.  It is a
    function of its argument alone; a method that would reach into the
    caches of the user instance is outside the model. *)
Definition callable : Type := arg → result pyval.

(** An entity: its primary key, the [_meta] fields the backend reads, and
    its methods by name.  [getattr(obj, name, None)] is the lookup in
    [attrs]; a method is a truthy object, so [if not access_fn] is the case
    where the lookup finds nothing. *)

Record Entity : Type := mkEntity {
  pk : pyval;
  app_label : string;
  model_name : string;
  attrs : gmap string callable;
}.

(** A row of Django's permission table, as the query in
    [_get_object_permissions] sees it. *)
Record Permission : Type := mkPermission {
  content_type_app_label : string;
  content_type_model : string;
  codename : string;
}.

(** ** The mutable user instance *)

(** Django's own model-level caches on the user instance; the auth backends
    of Django set them lazily, [clear_perm_cache] deletes them. *)
Record django_caches : Type := mkDjangoCaches {
  _user_perm_cache : option (gset string);
  _group_perm_cache : option (gset string);
  _perm_cache : option (gset string);
}.

Inductive event : Type :=
  | EvHasPerm (perm : string)
  | EvCall (name : string) (a : arg).

Record state : Type := mkState {
  _olp_cache : option (gmap string pyval);
  model_caches : django_caches;
  trace : list event;
}.

Definition set_olp_cache (c : gmap string pyval) (st : state) : state :=
  mkState (Some c) (model_caches st) (trace st).

Definition set_model_caches (d : django_caches) (st : state) : state :=
  mkState (_olp_cache st) d (trace st).

Definition log (e : event) (st : state) : state :=
  mkState (_olp_cache st) (model_caches st) (trace st ++ [e]).

(** ** Deployment *)

Record Env : Type := mkEnv {
  (** [getattr(settings, 'DJEM_UNIVERSAL_OLP', False)] *)
  DJEM_UNIVERSAL_OLP : bool;
  (** the rows behind [Permission.objects] *)
  permission_table : list Permission;
  (** the other authentication backends (Django's [ModelBackend]): their
      answer to [has_perm(user, perm, obj)], which may read and fill the
      model-level caches of the user instance *)
  model_backend :
    User → string → option Entity → django_caches → bool * django_caches;
}.

(** ** A state and exception monad *)

Definition M (A : Type) : Type := state → result A * state.

#[global] Instance M_ret : MRet M := λ A a st, (Ret a, st).

#[global] Instance M_bind : MBind M := λ A B f m st,
  match m st with
  | (Ret a, st') => f a st'
  | (Raise e, st') => (Raise e, st')
  end.

Definition lift_caches {A} (f : django_caches → A * django_caches) : M A :=
  λ st, let '(a, d) := f (model_caches st) in (Ret a, set_model_caches d st).

Definition emit (e : event) : M unit := λ st, (Ret tt, log e st).

(** [try: m except PermissionDenied: access = False] *)
Definition except_PermissionDenied (m : M pyval) : M pyval := λ st,
  match m st with
  | (Raise PermissionDenied, st') => (Ret (VBool false), st')
  | r => r
  end.

(** Calling an access method; the call is recorded. *)
Definition call (name : string) (fn : callable) (a : arg) : M pyval :=
  λ st, (fn a, log (EvCall name a) st).

(** [try: perm_cache = user_obj._olp_cache
     except AttributeError: perm_cache = user_obj._olp_cache = {}] *)
Definition get_olp_cache : M (gmap string pyval) := λ st,
  match _olp_cache st with
  | Some c => (Ret c, st)
  | None => (Ret ∅, set_olp_cache ∅ st)
  end.

(** [perm_cache[key] = access], on the dictionary the user instance holds. *)
Definition cache_store (key : string) (access : pyval) : M unit := λ st,
  (Ret tt, set_olp_cache (<[key := access]> (default ∅ (_olp_cache st))) st).

(** [perm_cache[key]] *)
Definition cache_read (key : string) : M pyval := λ st,
  match default ∅ (_olp_cache st) !! key with
  | Some v => (Ret v, st)
  | None => (Raise (KeyError key), st)
  end.

(** ** OLPMixin: construction and cache reset *)

Definition no_model_caches : django_caches := mkDjangoCaches None None None.

(** [OLPMixin.__init__]: [self._olp_cache = {}]; nothing has looked up a
    model-level permission on the new instance yet. *)
Definition OLPMixin_init : state := mkState (Some ∅) no_model_caches [].

(** A user instance of a model without the mixin: no [_olp_cache] attribute
    until the backend creates it. *)
Definition plain_init : state := mkState None no_model_caches [].

(** [self._olp_cache = {}] *)
Definition assign_olp_cache (c : gmap string pyval) : M unit :=
  λ st, (Ret tt, set_olp_cache c st).

(** [del self.<name>] for one of the model-level caches: an
    [AttributeError] when the instance has no such attribute. *)
Definition del_model_cache (name : string)
    (get : django_caches → option (gset string))
    (remove : django_caches → django_caches) : M unit := λ st,
  match get (model_caches st) with
  | Some _ => (Ret tt, set_model_caches (remove (model_caches st)) st)
  | None => (Raise (AttributeError name), st)
  end.

Definition clear_perm_cache : M unit :=
  assign_olp_cache ∅;;
  del_model_cache "_user_perm_cache" _user_perm_cache
    (λ d, mkDjangoCaches None (_group_perm_cache d) (_perm_cache d));;
  del_model_cache "_group_perm_cache" _group_perm_cache
    (λ d, mkDjangoCaches (_user_perm_cache d) None (_perm_cache d));;
  del_model_cache "_perm_cache" _perm_cache
    (λ d, mkDjangoCaches (_user_perm_cache d) (_group_perm_cache d) None).

(** ** ObjectPermissionsBackend *)

(** [user_obj.has_perm(perm)], the call without an object.  Through
    [OLPMixin.has_perm] and Django's [has_perm] alike, an active superuser is
    answered [True] and anyone else is answered by the backends; this
    backend's own [has_perm] returns [False] when there is no object, which
    leaves the answer to the other backends.  [OLPMixin_has_perm_no_object]
    below checks this against [OLPMixin_has_perm]. *)
Definition user_has_perm (env : Env) (user_obj : User) (perm : string)
    : M bool :=
  if is_active user_obj && is_superuser user_obj then mret true
  else lift_caches (model_backend env user_obj perm None).

(** ['{0}-{1}-{2}'.format(from_name, perm, obj.pk)] *)
Definition perm_cache_name (from_name : source) (perm : string) (pk : pyval)
    : string :=
  from_name_str from_name +:+ "-" +:+ perm +:+ "-" +:+ py_str pk.

(** [perm.split('.')[-1]] *)
Definition action_code (perm : string) : string :=
  List.last (split_on "."%char perm) "".

(** ['_{0}_can_{1}'.format(from_name, perm.split('.')[-1])] *)
Definition access_fn_name (from_name : source) (perm : string) : string :=
  "_" +:+ from_name_str from_name +:+ "_can_" +:+ action_code perm.

(** The argument of the access method: [user_obj] for the user source,
    [user_obj.groups.all()] otherwise. *)
Definition access_arg (from_name : source) (user_obj : User) : arg :=
  match from_name with
  | SrcUser => ArgUser user_obj
  | SrcGroup => ArgGroups (groups user_obj)
  end.

(** [_get_object_permission]: the decision of one source, a raw Python
    value ([True]-like, [False]-like or [None]), read from the dictionary
    or computed and stored. *)
Definition _get_object_permission (env : Env) (perm : string)
    (user_obj : User) (obj : Entity) (from_name : source) : M pyval :=
  if negb (is_active user_obj) then mret (VBool false)
  else
    perm_cache ← get_olp_cache;
    let key := perm_cache_name from_name perm (pk obj) in
    match perm_cache !! key with
    | None =>
        emit (EvHasPerm perm);;
        has ← user_has_perm env user_obj perm;
        access ←
          (if negb has then mret (VBool false)
           else
             let name := access_fn_name from_name perm in
             match attrs obj !! name with
             | None => mret VNone
             | Some access_fn =>
                 except_PermissionDenied
                   (call name access_fn (access_arg from_name user_obj))
             end);
        cache_store key access
    | Some _ => mret tt
    end;;
    cache_read key.

(** The model's permissions, as ['{0}.{1}'.format(app, name)]. *)
Definition perms_for_model (env : Env) (obj : Entity) : list string :=
  (λ p, content_type_app_label p +:+ "." +:+ codename p) <$>
  filter (λ p, content_type_app_label p = app_label obj
               ∧ content_type_model p = model_name obj)
         (permission_table env).

(** The [for perm in perms_for_model] loop of [_get_object_permissions];
    [from_name] is [None], ['user'] or ['group']. *)
Fixpoint collect_perms (env : Env) (user_obj : User) (obj : Entity)
    (from_name : option source) (todo : list string) (perms : gset string)
    : M (gset string) :=
  match todo with
  | [] => mret perms
  | perm :: todo =>
      user_access ←
        (if bool_decide (from_name ≠ Some SrcGroup)
         then _get_object_permission env perm user_obj obj SrcUser
         else mret VNone);
      group_access ←
        (if negb (truthy user_access) && bool_decide (from_name ≠ Some SrcUser)
         then _get_object_permission env perm user_obj obj SrcGroup
         else mret VNone);
      collect_perms env user_obj obj from_name todo
        (if truthy user_access || truthy group_access
            || (is_None user_access && is_None group_access)
         then {[perm]} ∪ perms else perms)
  end.

(** [_get_object_permissions] and its three callers. *)
Definition _get_object_permissions (env : Env) (user_obj : User)
    (obj : option Entity) (from_name : option source) : M (gset string) :=
  match obj with
  | None => mret ∅
  | Some obj =>
      if negb (is_active user_obj) || is_anonymous user_obj then mret ∅
      else if is_superuser user_obj && negb (DJEM_UNIVERSAL_OLP env)
      then mret (list_to_set (perms_for_model env obj))
      else collect_perms env user_obj obj from_name (perms_for_model env obj) ∅
  end.

Definition get_user_permissions env user_obj obj :=
  _get_object_permissions env user_obj obj (Some SrcUser).

Definition get_group_permissions env user_obj obj :=
  _get_object_permissions env user_obj obj (Some SrcGroup).

Definition get_all_permissions env user_obj obj :=
  _get_object_permissions env user_obj obj None.

(** [ObjectPermissionsBackend.has_perm]; [obj] is [None] when no object is
    given. *)
Definition has_perm (env : Env) (user_obj : User) (perm : string)
    (obj : option Entity) : M pyval :=
  match obj with
  | None => mret (VBool false)
  | Some obj =>
      user_access ← _get_object_permission env perm user_obj obj SrcUser;
      group_access ←
        (if negb (truthy user_access)
         then _get_object_permission env perm user_obj obj SrcGroup
         else mret VNone);
      mret (py_or user_access
              (py_or group_access
                 (VBool (is_None user_access && is_None group_access))))
  end.

(** ** The user model's [has_perm] *)

(** Modelled from the spec: Django's [_user_has_perm], which src/ imports
    from [django.contrib.auth.models] and does not contain.  The configured
    backends are asked in turn, the first grant wins, a [PermissionDenied]
    raised by a backend is a refusal; the backends modelled are Django's
    own ([model_backend]) followed by [ObjectPermissionsBackend]. *)
Definition _user_has_perm (env : Env) (user : User) (perm : string)
    (obj : option Entity) : M pyval :=
  granted ← lift_caches (model_backend env user perm obj);
  if (granted : bool) then mret (VBool true)
  else λ st,
    match has_perm env user perm obj st with
    | (Ret v, st') => (Ret (VBool (truthy v)), st')
    | (Raise PermissionDenied, st') => (Ret (VBool false), st')
    | r => r
    end.

(** Modelled from the spec: the [has_perm] of Django's [PermissionsMixin],
    which [super(OLPMixin, self).has_perm] reaches and src/ does not contain:
    an active superuser is granted at once, anyone else is answered by the
    backends. *)
Definition PermissionsMixin_has_perm (env : Env) (user : User)
    (perm : string) (obj : option Entity) : M pyval :=
  if is_active user && is_superuser user then mret (VBool true)
  else _user_has_perm env user perm obj.

(** [OLPMixin.has_perm] *)
Definition OLPMixin_has_perm (env : Env) (self : User) (perm : string)
    (obj : option Entity) : M pyval :=
  if negb (DJEM_UNIVERSAL_OLP env)
  then PermissionsMixin_has_perm env self perm obj
  else if negb (bool_decide (is_Some obj))
          && is_active self && is_superuser self
  then mret (VBool true)
  else _user_has_perm env self perm obj.

(** ** Reading the model *)

(** The tri-state decision a cached or returned value stands for: the code
    tests a value for truth and for [is None]. *)
Inductive Decision : Type := Denied | Granted | NoOpinion.

Definition decision_of (v : pyval) : Decision :=
  if truthy v then Granted else if is_None v then NoOpinion else Denied.

(** The dictionary of decisions of a user instance, empty when the
    attribute does not exist. *)
Definition cache_of (st : state) : gmap string pyval :=
  default ∅ (_olp_cache st).





(** The answer of [user_obj.has_perm(perm)] when the model-level caches of
    the instance are [d], and the caches it leaves. *)
Definition holds_model_perm (env : Env) (u : User) (perm : string)
    (d : django_caches) : bool :=
  is_active u && is_superuser u || (model_backend env u perm None d).1.

Definition caches_after_lookup (env : Env) (u : User) (perm : string)
    (d : django_caches) : django_caches :=
  if is_active u && is_superuser u then d
  else (model_backend env u perm None d).2.

(** How often the access method [name] was invoked in a trace. *)
Definition is_call (name : string) (e : event) : bool :=
  match e with
  | EvCall n _ => bool_decide (n = name)
  | EvHasPerm _ => false
  end.

Definition invocations (name : string) (tr : list event) : nat :=
  length (List.filter (is_call name) tr).

(** An entity with one access method replaced. *)
Definition with_attr (name : string) (fn : callable) (obj : Entity) : Entity :=
  mkEntity (pk obj) (app_label obj) (model_name obj) (<[name := fn]> (attrs obj)).

(** No occurrence of the character [c] in [s]. *)
Fixpoint free_of (c : ascii) (s : string) : bool :=
  match s with
  | EmptyString => true
  | String a s' => negb (Ascii.eqb a c) && free_of c s'
  end.

(** The state a resolution leaves when it had to compute. *)
Definition computed (env : Env) (u : User) (perm : string) (st : state)
    (c : gmap string pyval) (evs : list event) : state :=
  mkState (Some c)
    (caches_after_lookup env u perm (model_caches st))
    (trace st ++ EvHasPerm perm :: evs).

(** What [has_perm] answers when both decisions it needs are in the
    dictionary [c]: nothing when the user decision is missing, or is
    falsy with the group decision missing. *)
Definition cached_verdict (c : gmap string pyval) (perm : string)
    (obj : Entity) : option bool :=
  match c !! perm_cache_name SrcUser perm (pk obj) with
  | None => None
  | Some vu =>
      if truthy vu then Some true
      else match c !! perm_cache_name SrcGroup perm (pk obj) with
           | None => None
           | Some vg => Some (truthy vg || (is_None vu && is_None vg))
           end
  end.

(** The other source. *)
Definition other_source (src : source) : source :=
  match src with SrcUser => SrcGroup | SrcGroup => SrcUser end.

(** * OLPMixin: the named logs *)

Module Logs.

(** An [OrderedDict] with string keys: its items in insertion order, the
    oldest first.  The keys of a dictionary are distinct ([od_wf]). *)
Abbreviation odict V := (list (string * V)).

Definition od_wf {V} (d : odict V) : Prop := NoDup d.*1.

(** [d.get(k)], [None] standing for a missing key *)
Fixpoint od_get {V} (k : string) (d : odict V) : option V :=
  match d with
  | [] => None
  | (k', v) :: d => if decide (k' = k) then Some v else od_get k d
  end.

(** [d[k] = v]: in place when the key is there, at the end otherwise. *)
Fixpoint od_set {V} (k : string) (v : V) (d : odict V) : odict V :=
  match d with
  | [] => [(k, v)]
  | (k', v') :: d =>
      if decide (k' = k) then (k, v) :: d else (k', v') :: od_set k v d
  end.

(** [d.popitem()]: the item inserted last and the rest, nothing for an
    empty dictionary. *)
Definition od_popitem {V} (d : odict V) : option (string * V * odict V) :=
  match rev d with
  | [] => None
  | item :: before => Some (item, rev before)
  end.

(** [d.pop(k)] for a key that is there: the dictionary without it. *)
Definition od_pop {V} (k : string) (d : odict V) : odict V :=
  filter (λ item, item.1 ≠ k) d.

(** The two dictionaries [OLPMixin.__init__] creates, name to lines. *)
Record logs : Type := mkLogs {
  _active_logs : odict (list string);
  _finished_logs : odict (list string);
}.

(** [OLPMixin.__init__] *)
Definition init : logs := mkLogs [] [].

Inductive error : Type :=
  | ValueError (msg : string)
  | KeyError (msg : string).

Inductive outcome (A : Type) : Type :=
  | Done (a : A)
  | Failed (e : error).
Arguments Done {A} a.
Arguments Failed {A} e.

(** A log as [get_log] hands it out: the list of lines when [raw], the
    lines joined otherwise. *)
Inductive rendering : Type :=
  | Lines (lines : list string)
  | Text (text : string).

Definition quote : string := String "034" EmptyString.
Definition newline : string := String "010" EmptyString.

(** [sep.join(lines)] *)
Fixpoint join (sep : string) (lines : list string) : string :=
  match lines with
  | [] => EmptyString
  | [line] => line
  | line :: lines => line +:+ sep +:+ join sep lines
  end.

Definition render (raw : bool) (lines : list string) : rendering :=
  if raw then Lines lines else Text (join newline lines).

(** The [KeyError] of [popitem] on an empty dictionary. *)
Definition empty_popitem : error := KeyError "dictionary is empty".

Definition start_log (name : string) (st : logs) : outcome unit * logs :=
  match od_get name (_active_logs st) with
  | Some _ =>
      (Failed (ValueError ("A log named " +:+ quote +:+ name +:+ quote
                           +:+ " is already active.")), st)
  | None => (Done tt, mkLogs (od_set name [] (_active_logs st))
                        (_finished_logs st))
  end.

Definition end_log (st : logs) : outcome unit * logs :=
  match od_popitem (_active_logs st) with
  | None => (Failed empty_popitem, st)
  | Some ((name, log), rest) =>
      let finished :=
        match od_get name (_finished_logs st) with
        | Some _ => od_pop name (_finished_logs st)
        | None => _finished_logs st
        end in
      (Done tt, mkLogs rest (od_set name log finished))
  end.

Definition log (lines : list string) (st : logs) : outcome unit * logs :=
  match od_popitem (_active_logs st) with
  | None => (Failed empty_popitem, st)
  | Some ((name, log), rest) =>
      (Done tt, mkLogs (od_set name (log ++ lines) rest) (_finished_logs st))
  end.

Definition get_log (name : string) (raw : bool) (st : logs)
    : outcome rendering * logs :=
  match od_get name (_finished_logs st) with
  | None =>
      (Failed (KeyError ("No log found for " +:+ quote +:+ name +:+ quote
                         +:+ ". Has it been finished?")), st)
  | Some log => (Done (render raw log), st)
  end.

Definition get_last_log (raw : bool) (st : logs) : outcome rendering * logs :=
  match od_popitem (_finished_logs st) with
  | None => (Failed (KeyError "No finished logs to retrieve."), st)
  | Some ((name, log), rest) =>
      (Done (render raw log), mkLogs (_active_logs st) (od_set name log rest))
  end.

(** Several calls of [log] in a row, up to the first that fails. *)
Fixpoint log_each (batches : list (list string)) (st : logs)
    : outcome unit * logs :=
  match batches with
  | [] => (Done tt, st)
  | lines :: batches =>
      match log lines st with
      | (Done _, st') => log_each batches st'
      | failed => failed
      end
  end.

(** One call after another, up to the first that fails. *)
Definition and_then (f g : logs → outcome unit * logs) (st : logs)
    : outcome unit * logs :=
  match f st with
  | (Done _, st') => g st'
  | failed => failed
  end.

(** Both dictionaries have distinct keys. *)
Definition wf (st : logs) : Prop :=
  od_wf (_active_logs st) ∧ od_wf (_finished_logs st).

End Logs.

(** * The view guards *)

Module Views.

(** An entry of [perms]: the name of a permission, or the two-tuple of a
    name and the keyword argument of the view that holds the primary key
    of the object. *)
Inductive requirement : Type :=
  | ByName (perm : string)
  | OnObject (perm : string) (obj_arg : string).

(** A keyword argument of the view: the value the URL gave, or the
    instance [_check_perms] has put in its place. *)
Inductive kwvalue : Type :=
  | FromUrl (v : pyval)
  | Instance (obj : Entity).

(** The outcome of [Permission.objects.get(...)] inside the [try]: a row,
    one of the two exceptions the [except] clause names
    ([Permission.DoesNotExist], [ValueError]), or any other exception. *)
Inductive lookup : Type :=
  | Found (perm_obj : Permission)
  | Caught
  | Fails (e : exn).

(** What [_check_perms] calls and does not define. *)
Record Deps : Type := mkDeps {
  (** [Permission.objects.get(content_type__app_label=app, codename=code)] *)
  get_permission : string → string → lookup;
  (** [get_object_or_404(perm_obj.content_type.model_class(), pk=obj_pk)] *)
  get_object_or_404 : Permission → kwvalue → result Entity;
  (** [user.has_perm(perm, obj)], on the user instance *)
  user_has_perm : string → option Entity → M pyval;
}.

(** The two objects [_check_perms] works on: the keyword arguments of the
    view and the user instance. *)
Definition world : Type := gmap string kwvalue * state.

(** [if not user.has_perm(perm, obj): raise PermissionDenied] *)
Definition require (deps : Deps) (perm : string) (obj : option Entity)
    (w : world) : result unit * world :=
  match user_has_perm deps perm obj w.2 with
  | (Ret v, st') =>
      if truthy v then (Ret tt, (w.1, st'))
      else (Raise PermissionDenied, (w.1, st'))
  | (Raise e, st') => (Raise e, (w.1, st'))
  end.

(** The body of the loop of [_check_perms]. *)
Definition check_one (deps : Deps) (req : requirement) (w : world)
    : result unit * world :=
  match req with
  | ByName perm => require deps perm None w
  | OnObject perm obj_arg =>
      match w.1 !! obj_arg with
      | None => (Raise (KeyError obj_arg), w)
      | Some obj_pk =>
          match split_on "." perm with
          | [perm_app; perm_code] =>
              match get_permission deps perm_app perm_code with
              | Found perm_obj =>
                  match get_object_or_404 deps perm_obj obj_pk with
                  | Ret obj =>
                      require deps perm (Some obj)
                        (<[obj_arg := Instance obj]> w.1, w.2)
                  | Raise e => (Raise e, w)
                  end
              | Caught => (Raise PermissionDenied, w)
              | Fails e => (Raise e, w)
              end
          | _ => (Raise PermissionDenied, w)
          end
      end
  end.

Fixpoint _check_perms (deps : Deps) (perms : list requirement) (w : world)
    : result unit * world :=
  match perms with
  | [] => (Ret tt, w)
  | req :: perms =>
      match check_one deps req w with
      | (Ret _, w') => _check_perms deps perms w'
      | failed => failed
      end
  end.

(** [PermissionRequiredMixin.has_permission], [perms] being what
    [get_permission_required] returned. *)
Definition has_permission (deps : Deps) (perms : list requirement)
    (w : world) : result bool * world :=
  match _check_perms deps perms w with
  | (Ret _, w') => (Ret true, w')
  | (Raise PermissionDenied, w') => (Ret false, w')
  | (Raise e, w') => (Raise e, w')
  end.

(** What a guarded view answers with: the view function called with the
    keyword arguments, the redirect to the login page, or the answer of
    [handle_no_permission]. *)
Inductive response : Type :=
  | ViewCalled (kwargs : gmap string kwvalue)
  | RedirectToLogin (path login : string)
  | NoPermission.

(** The request and the URL helpers the decorator reads. *)
Record Request : Type := mkRequest {
  build_absolute_uri : string;
  get_full_path : string;
}.

Record Urls : Type := mkUrls {
  LOGIN_URL : string;
  resolve_url : string → string;
  (** the first two fields of [urlparse]: scheme and network location *)
  urlparse : string → string * string;
}.

(** [login_url or settings.LOGIN_URL] *)
Definition login_or_default (urls : Urls) (login_url : option string)
    : string :=
  match login_url with
  | Some url => if String.eqb url EmptyString then LOGIN_URL urls else url
  | None => LOGIN_URL urls
  end.

(** The last part of [_wrapped_view]: where to send the browser. *)
Definition login_redirect (urls : Urls) (login_url : option string)
    (request : Request) : response :=
  let path := build_absolute_uri request in
  let resolved_login_url := resolve_url urls (login_or_default urls login_url) in
  let '(login_scheme, login_netloc) := urlparse urls resolved_login_url in
  let '(current_scheme, current_netloc) := urlparse urls path in
  let path :=
    if (String.eqb login_scheme EmptyString
        || String.eqb login_scheme current_scheme)
       && (String.eqb login_netloc EmptyString
           || String.eqb login_netloc current_netloc)
    then get_full_path request else path in
  RedirectToLogin path resolved_login_url.

(** [_wrapped_view], the view that [permission_required] builds from
    the permissions, [login_url] and [raise_exception]. *)
Definition _wrapped_view (deps : Deps) (urls : Urls)
    (perms : list requirement) (login_url : option string)
    (raise_exception : bool) (request : Request) (w : world)
    : result response * world :=
  match _check_perms deps perms w with
  | (Ret _, w') => (Ret (ViewCalled w'.1), w')
  | (Raise PermissionDenied, w') =>
      if raise_exception then (Raise PermissionDenied, w')
      else (Ret (login_redirect urls login_url request), w')
  | (Raise e, w') => (Raise e, w')
  end.

(** [PermissionRequiredMixin.dispatch] *)
Definition dispatch (deps : Deps) (perms : list requirement) (w : world)
    : result response * world :=
  match has_permission deps perms w with
  | (Ret true, w') => (Ret (ViewCalled w'.1), w')
  | (Ret false, w') => (Ret NoPermission, w')
  | (Raise e, w') => (Raise e, w')
  end.

(** A permission on an object is unknown when its name is not of the form
    [app.code], or when the query for it ends in one of the exceptions the
    [except] clause names. *)
Definition unknown (deps : Deps) (perm : string) : Prop :=
  match split_on "." perm with
  | [perm_app; perm_code] => get_permission deps perm_app perm_code = Caught
  | _ => True
  end.

(** The keyword arguments the object requirements of [perms] name. *)
Fixpoint object_args (perms : list requirement) : list string :=
  match perms with
  | [] => []
  | ByName _ :: perms => object_args perms
  | OnObject _ obj_arg :: perms => obj_arg :: object_args perms
  end.

End Views.

(** * A small deployment to run the model on *)

Module Library.
Local Open Scope Z_scope.

(** The permissions of the model [app.book]. *)
Definition table : list Permission :=
  [ mkPermission "app" "book" "view";
    mkPermission "app" "book" "change";
    mkPermission "app" "book" "delete";
    mkPermission "app" "author" "change" ].

Definition filled : django_caches :=
  mkDjangoCaches (Some ∅) (Some ∅) (Some ∅).

(** Django's backend here: the users 1 and 2 hold every permission of the
    table at the model level and nobody holds one on an object; a lookup
    for an active user fills the model-level caches. *)
Definition backend (u : User) (perm : string) (obj : option Entity)
    (d : django_caches) : bool * django_caches :=
  match obj with
  | Some _ => (false, d)
  | None =>
      if is_active u
      then (bool_decide (user_pk u = 1 ∨ user_pk u = 2)
            && bool_decide (perm ∈ ["app.view"; "app.change"; "app.delete"]),
            filled)
      else (false, d)
  end.

Definition site : Env := mkEnv false table backend.
Definition strict_site : Env := mkEnv true table backend.

Definition alice : User := mkUser 1 true false false [10].
Definition bob : User := mkUser 2 true false false [20].
Definition carol : User := mkUser 3 true false false [].
Definition dormant : User := mkUser 1 false false false [10].
Definition root : User := mkUser 4 true true false [].
Definition visitor : User := mkUser 1 true false true [].

(** [_user_can_delete]: only the owner, user 1. *)
Definition owner_only : callable := λ a,
  match a with
  | ArgUser u => Ret (VBool (bool_decide (user_pk u = 1)))
  | ArgGroups _ => Ret (VBool false)
  end.

(** [_group_can_change]: members of group 20. *)
Definition editors_only : callable := λ a,
  match a with
  | ArgUser _ => Ret (VBool false)
  | ArgGroups gs => Ret (VBool (bool_decide (20 ∈ gs)))
  end.

Definition broken : callable := λ _, Raise (OtherError "TypeError").

Definition book : Entity :=
  mkEntity (VInt 7) "app" "book"
    (<["_user_can_delete" := owner_only]>
       (<["_group_can_change" := editors_only]> ∅)).

(** A book without any access method. *)
Definition leaflet : Entity := mkEntity (VInt 8) "app" "book" ∅.

(** A book whose primary key is a slug. *)
Definition pamphlet : Entity := mkEntity (VStr "x-7") "app" "book" ∅.


Definition faulty : Entity := with_attr "_user_can_delete" broken leaflet.

End Library.

Import Library.

(** The views of the deployment. *)
Module Office.

(** [Permission.objects.get] on the table: one row, none, or several. *)
Definition find_permission (app code : string) : Views.lookup :=
  match filter (λ p, content_type_app_label p = app ∧ codename p = code)
          table with
  | [perm_obj] => Views.Found perm_obj
  | [] => Views.Caught
  | _ => Views.Fails (OtherError "MultipleObjectsReturned")
  end.

(** [get_object_or_404]: the two books, by primary key. *)
Definition shelf (perm_obj : Permission) (v : Views.kwvalue) : result Entity :=
  match v with
  | Views.FromUrl (VInt 7) => Ret book
  | Views.FromUrl (VInt 8) => Ret leaflet
  | _ => Raise (OtherError "Http404")
  end.

Definition deps_for (u : User) : Views.Deps :=
  Views.mkDeps find_permission shelf (OLPMixin_has_perm site u).

Definition urls : Views.Urls :=
  Views.mkUrls "/login/" (λ url, url) (λ url, (EmptyString, EmptyString)).

Definition request : Views.Request :=
  Views.mkRequest "http://testserver/books/7/" "/books/7/".

(** The keyword arguments of [/books/7/]. *)
Definition book_7 : Views.world :=
  ({["pk" := Views.FromUrl (VInt 7)]}, OLPMixin_init).

End Office.

(** * Properties *)

Ltac run :=
  unfold mbind, M_bind, mret, M_ret, emit, cache_store, cache_read,
    get_olp_cache, lift_caches, call, except_PermissionDenied,
    assign_olp_cache, del_model_cache; simpl.

(** *** Strings *)

Lemma split_on_free (c : ascii) (t : string) :
  free_of c t = true → split_on c t = [t].
Proof.
  induction t as [|a t IH]; simpl; [done|].
  destruct (Ascii.eqb a c); simpl; [done|].
  intros Ht. by rewrite (IH Ht).
Qed.

Lemma split_on_app (c : ascii) (s t : string) :
  ∃ l, l ≠ [] ∧ split_on c (s +:+ String c t) = l ++ split_on c t.
Proof.
  induction s as [|a s (l & Hl & IH)].
  - change ("" +:+ String c t) with (String c t). simpl.
    rewrite Ascii.eqb_refl. by exists [""].
  - change (String a s +:+ String c t) with (String a (s +:+ String c t)).
    simpl. rewrite IH. destruct (Ascii.eqb a c).
    + by exists ("" :: l).
    + destruct l as [|hd tl]; [done|]. by exists (String a hd :: tl).
Qed.

Lemma last_app_ne {A} (l x : list A) (d : A) :
  x ≠ [] → List.last (l ++ x) d = List.last x d.
Proof.
  intros Hx. induction l as [|a l IH]; [done|].
  simpl. rewrite IH. destruct (l ++ x) eqn:E; [|done].
  by destruct l, x.
Qed.

Lemma split_on_nonempty (c : ascii) (s : string) : split_on c s ≠ [].
Proof.
  destruct s as [|a s]; simpl; [done|].
  destruct (Ascii.eqb a c); [done|]. by destruct (split_on c s).
Qed.

(** The action code of a permission is what follows its last dot. *)
Lemma action_code_last (app action : string) :
  free_of "." action = true → action_code (app +:+ "." +:+ action) = action.
Proof.
  intros Hfree. unfold action_code.
  change ("." +:+ action) with (String "." action).
  destruct (split_on_app "." app action) as (l & _ & ->).
  rewrite last_app_ne by apply split_on_nonempty.
  by rewrite split_on_free.
Qed.


Section Engine.
Context (env : Env).

Lemma user_has_perm_eq (u : User) (perm : string) (st : state) :
  user_has_perm env u perm st =
    (Ret (holds_model_perm env u perm (model_caches st)),
     set_model_caches (caches_after_lookup env u perm (model_caches st)) st).
Proof.
  unfold user_has_perm, holds_model_perm, caches_after_lookup.
  destruct (is_active u && is_superuser u); run.
  - by destruct st.
  - by destruct (model_backend env u perm None (model_caches st)).
Qed.

(** The inactive check comes first: nothing is read or written. *)
Lemma resolve_inactive (u : User) perm obj src st :
  is_active u = false →
  _get_object_permission env perm u obj src st = (Ret (VBool false), st).
Proof. intros Hu. unfold _get_object_permission. by rewrite Hu. Qed.

(** A cached key is answered from the dictionary and nothing else
    happens. *)
Lemma resolve_hit (u : User) perm obj src st v :
  is_active u = true →
  cache_of st !! perm_cache_name src perm (pk obj) = Some v →
  _get_object_permission env perm u obj src st = (Ret v, st).
Proof.
  intros Hu Hv. unfold _get_object_permission, cache_of in *. rewrite Hu.
  run. destruct (_olp_cache st) as [c|] eqn:Hc; simpl in *.
  - rewrite Hv. simpl. rewrite Hc. simpl. by rewrite Hv.
  - by rewrite lookup_empty in Hv.
Qed.

(** A key that is not cached is computed: the model-level lookup, then the
    access method if the lookup succeeded and the method exists. *)
Lemma resolve_miss (u : User) perm obj src st :
  is_active u = true →
  cache_of st !! perm_cache_name src perm (pk obj) = None →
  let key := perm_cache_name src perm (pk obj) in
  let name := access_fn_name src perm in
  let a := access_arg src u in
  _get_object_permission env perm u obj src st =
    if negb (holds_model_perm env u perm (model_caches st))
    then (Ret (VBool false),
          computed env u perm st (<[key := VBool false]> (cache_of st)) [])
    else match attrs obj !! name with
         | None =>
             (Ret VNone, computed env u perm st (<[key := VNone]> (cache_of st)) [])
         | Some fn =>
             match fn a with
             | Ret v =>
                 (Ret v,
                  computed env u perm st (<[key := v]> (cache_of st)) [EvCall name a])
             | Raise PermissionDenied =>
                 (Ret (VBool false),
                  computed env u perm st (<[key := VBool false]> (cache_of st))
                    [EvCall name a])
             | Raise e =>
                 (Raise e, computed env u perm st (cache_of st) [EvCall name a])
             end
         end.
Proof.
  intros Hu Hk key name a.
  unfold _get_object_permission, computed, cache_of in *. rewrite Hu. run.
  fold key name a. fold key in Hk.
  destruct (_olp_cache st) as [c|] eqn:Hc; simpl in *; rewrite Hk;
    rewrite user_has_perm_eq; simpl.
  all: destruct (holds_model_perm env u perm (model_caches st)); simpl.
  all: try destruct (attrs obj !! name) as [fn|]; simpl.
  all: try (destruct (fn a) as [v|[]]; simpl).
  all: unfold log, set_olp_cache; simpl.
  all: rewrite ?Hc; simpl.
  all: rewrite ?lookup_insert_eq, <- ?app_assoc; simpl; done.
Qed.

(** The three ways a resolution can go, as a case analysis on the goal. *)
Ltac resolve_cases u perm obj src st :=
  let key := constr:(perm_cache_name src perm (pk obj)) in
  let Hact := fresh "Hact" in
  let Hkey := fresh "Hkey" in
  destruct (is_active u) eqn:Hact;
  [ destruct (cache_of st !! key) eqn:Hkey;
    [ rewrite (resolve_hit u perm obj src st _ Hact Hkey)
    | rewrite (resolve_miss u perm obj src st Hact Hkey);
      destruct (holds_model_perm env u perm (model_caches st)); simpl;
      [ destruct (attrs obj !! access_fn_name src perm) as [?fn|]; simpl;
        [ destruct (fn (access_arg src u)) as [?v|[]]; simpl | ]
      | ] ]
  | rewrite (resolve_inactive u perm obj src st Hact) ].

(** A resolution that returns for an active principal leaves its value in
    the dictionary. *)
Lemma resolve_caches (u : User) perm obj src st v st1 :
  is_active u = true →
  _get_object_permission env perm u obj src st = (Ret v, st1) →
  cache_of st1 !! perm_cache_name src perm (pk obj) = Some v.
Proof.
  intros Hu. resolve_cases u perm obj src st; try congruence.
  all: intros [= <- <-]; try done.
  all: unfold computed, cache_of; simpl; by rewrite lookup_insert_eq.
Qed.

(** A resolution touches no other key of the dictionary. *)
Lemma resolve_frame (u : User) perm obj src st r st1 k :
  _get_object_permission env perm u obj src st = (r, st1) →
  k ≠ perm_cache_name src perm (pk obj) →
  cache_of st1 !! k = cache_of st !! k.
Proof.
  resolve_cases u perm obj src st; intros [= <- <-] Hk; try done.
  all: unfold computed; try (unfold cache_of at 1; simpl).
  all: try by rewrite lookup_insert_ne.
Qed.

(** A resolution appends to the trace, and invokes at most its own access
    method, at most once. *)
Lemma resolve_trace (u : User) perm obj src st r st1 :
  _get_object_permission env perm u obj src st = (r, st1) →
  ∃ evs, trace st1 = trace st ++ evs
    ∧ ∀ name, invocations name evs
              ≤ (if bool_decide (name = access_fn_name src perm) then 1 else 0).
Proof.
  assert (Hcount : ∀ evs, (evs = [] ∨ evs = [EvHasPerm perm]
            ∨ evs = [EvHasPerm perm;
                     EvCall (access_fn_name src perm) (access_arg src u)]) →
          ∀ name, invocations name evs
                  ≤ (if bool_decide (name = access_fn_name src perm) then 1 else 0)).
  { intros evs Hevs name. unfold invocations.
    destruct Hevs as [-> | [-> | ->]]; simpl; repeat case_bool_decide;
      simpl; try lia; congruence. }
  resolve_cases u perm obj src st; intros [= <- <-].
  all: unfold computed; simpl.
  all: try (exists []; split; [by rewrite app_nil_r | apply Hcount; auto]).
  all: eexists; (split; [reflexivity | apply Hcount; auto]).
Qed.

Lemma invocations_app (name : string) (tr evs : list event) :
  invocations name (tr ++ evs) = invocations name tr + invocations name evs.
Proof. unfold invocations. by rewrite List.filter_app, length_app. Qed.

Lemma access_fn_name_sources (perm : string) :
  access_fn_name SrcUser perm ≠ access_fn_name SrcGroup perm.
Proof. unfold access_fn_name. cbv [String.append from_name_str]. congruence. Qed.

Lemma perm_cache_name_sources (perm perm' : string) (pk pk' : pyval) :
  perm_cache_name SrcUser perm pk ≠ perm_cache_name SrcGroup perm' pk'.
Proof. unfold perm_cache_name. cbv [String.append from_name_str]. congruence. Qed.

(** What [has_perm] returns once the user source has resolved. *)
Lemma has_perm_after_user (u : User) perm obj st vu st1 :
  _get_object_permission env perm u obj SrcUser st = (Ret vu, st1) →
  has_perm env u perm (Some obj) st =
    if truthy vu then (Ret vu, st1)
    else match _get_object_permission env perm u obj SrcGroup st1 with
         | (Ret vg, st2) =>
             (Ret (py_or vg (VBool (is_None vu && is_None vg))), st2)
         | (Raise e, st2) => (Raise e, st2)
         end.
Proof.
  intros Hu. unfold has_perm. run. rewrite Hu.
  destruct (truthy vu) eqn:Ht; simpl.
  - unfold py_or. by rewrite Ht.
  - destruct (_get_object_permission env perm u obj SrcGroup st1) as [[vg|e] st2];
      [|done]. unfold py_or at 1. by rewrite Ht.
Qed.


(** C2, amended.  An active principal without the model-level permission
    is denied by either source on a key that is not cached yet: the lookup
    is made, [False] is returned and stored under the key, and no access
    method is consulted.  With both keys uncached [has_perm] therefore
    returns [False], whatever access methods the entity has. *)
Theorem no_model_perm_denies (u : User) perm obj st :
  is_active u = true →
  (∀ d, holds_model_perm env u perm d = false) →
  cache_of st !! perm_cache_name SrcUser perm (pk obj) = None →
  cache_of st !! perm_cache_name SrcGroup perm (pk obj) = None →
  (∀ src, ∃ st',
      _get_object_permission env perm u obj src st = (Ret (VBool false), st')
      ∧ decision_of (VBool false) = Denied
      ∧ cache_of st' !! perm_cache_name src perm (pk obj) = Some (VBool false)
      ∧ trace st' = trace st ++ [EvHasPerm perm])
  ∧ ∃ st',
      has_perm env u perm (Some obj) st = (Ret (VBool false), st')
      ∧ cache_of st' !! perm_cache_name SrcUser perm (pk obj)
        = Some (VBool false)
      ∧ cache_of st' !! perm_cache_name SrcGroup perm (pk obj)
        = Some (VBool false)
      ∧ trace st' = trace st ++ [EvHasPerm perm; EvHasPerm perm].
Proof.
  intros Hu Hno Hku Hkg.
  assert (Hsrc : ∀ src st0,
    cache_of st0 !! perm_cache_name src perm (pk obj) = None →
    _get_object_permission env perm u obj src st0 =
      (Ret (VBool false),
       computed env u perm st0
         (<[perm_cache_name src perm (pk obj) := VBool false]> (cache_of st0))
         [])).
  { intros src st0 Hk. rewrite (resolve_miss u perm obj src st0 Hu Hk).
    by rewrite Hno. }
  split.
  - intros src. eexists. split; [|split; [done|]].
    + apply Hsrc. by destruct src.
    + unfold computed, cache_of; simpl. by rewrite lookup_insert_eq.
  - pose proof (Hsrc SrcUser st Hku) as Hrun.
    rewrite (has_perm_after_user _ _ _ _ _ _ Hrun). simpl.
    rewrite Hsrc.
    + eexists. split; [done|]. unfold computed, cache_of; simpl.
      rewrite lookup_insert_ne by (apply not_eq_sym, perm_cache_name_sources).
      rewrite !lookup_insert_eq, <- app_assoc. done.
    + unfold computed, cache_of at 1; simpl.
      rewrite lookup_insert_ne by apply perm_cache_name_sources. done.
Qed.


(** C4, amended.  A decision that a resolution has returned is answered again, from
    the dictionary and with nothing else happening, by every later
    resolution for the key as long as the entry is there; [has_perm] called
    a second time returns the same value and leaves the user instance as the
    first call left it, so that the two calls together invoke each access
    method at most once; a new instance, with the mixin or without, has
    no decision stored and its first resolution starts with the model-level
    lookup. *)
Theorem decisions_are_cached (u : User) perm obj :
  (∀ src st v st1 st2,
      _get_object_permission env perm u obj src st = (Ret v, st1) →
      cache_of st2 !! perm_cache_name src perm (pk obj)
      = cache_of st1 !! perm_cache_name src perm (pk obj) →
      _get_object_permission env perm u obj src st2 = (Ret v, st2))
  ∧ (∀ st v st1,
      has_perm env u perm (Some obj) st = (Ret v, st1) →
      has_perm env u perm (Some obj) st1 = (Ret v, st1)
      ∧ ∀ name, invocations name (trace st1) ≤ S (invocations name (trace st)))
  ∧ (∀ new, new = OLPMixin_init ∨ new = plain_init →
     cache_of new = ∅
     ∧ (is_active u = true →
        ∀ src, ∃ r st' evs,
          _get_object_permission env perm u obj src new = (r, st')
          ∧ trace st' = EvHasPerm perm :: evs)).
Proof.
  assert (Hagain : ∀ src st v st1 st2,
      _get_object_permission env perm u obj src st = (Ret v, st1) →
      cache_of st2 !! perm_cache_name src perm (pk obj)
      = cache_of st1 !! perm_cache_name src perm (pk obj) →
      _get_object_permission env perm u obj src st2 = (Ret v, st2)).
  { intros src st v st1 st2 Hrun Hsame.
    destruct (is_active u) eqn:Hu.
    - apply resolve_hit; [done|].
      by rewrite Hsame, (resolve_caches _ _ _ _ _ _ _ Hu Hrun).
    - rewrite resolve_inactive in Hrun by done. injection Hrun as <- <-.
      by apply resolve_inactive. }
  split; [exact Hagain|]. split.
  - intros st v st1 Hrun.
    destruct (_get_object_permission env perm u obj SrcUser st)
      as [[vu|e] sa] eqn:Huser.
    2:{ unfold has_perm in Hrun. revert Hrun. run. by rewrite Huser. }
    rewrite (has_perm_after_user _ _ _ _ _ _ Huser) in Hrun.
    destruct (resolve_trace _ _ _ _ _ _ _ Huser) as (eu & Htu & Hcu).
    destruct (truthy vu) eqn:Htruthy.
    + injection Hrun as <- <-. split.
      * rewrite (has_perm_after_user u perm obj sa vu sa), Htruthy; [done|].
        by eapply Hagain.
      * intros name. rewrite Htu, invocations_app.
        specialize (Hcu name). case_bool_decide; lia.
    + destruct (_get_object_permission env perm u obj SrcGroup sa)
        as [[vg|e] sb] eqn:Hgroup; [|done].
      injection Hrun as <- <-.
      destruct (resolve_trace _ _ _ _ _ _ _ Hgroup) as (eg & Htg & Hcg).
      split.
      * rewrite (has_perm_after_user u perm obj sb vu sb), Htruthy.
        -- by rewrite (Hagain SrcGroup sa vg sb sb).
        -- apply (Hagain SrcUser st vu sa sb); [done|].
           eapply resolve_frame; [exact Hgroup|].
           apply perm_cache_name_sources.
      * intros name. rewrite Htg, Htu, !invocations_app.
        specialize (Hcu name). specialize (Hcg name).
        pose proof (access_fn_name_sources perm).
        repeat case_bool_decide; try lia; congruence.
  - intros new Hnew.
    assert (Hempty : cache_of new = ∅) by (by destruct Hnew as [-> | ->]).
    split; [done|]. intros Hu src.
    assert (Htrace : trace new = []) by (by destruct Hnew as [-> | ->]).
    rewrite (resolve_miss u perm obj src new Hu) by (by rewrite Hempty).
    unfold computed. rewrite Htrace.
    destruct (holds_model_perm env u perm _); simpl; [|by eexists _, _, _].
    destruct (attrs obj !! access_fn_name src perm) as [fn|];
      [|by eexists _, _, _].
    destruct (fn (access_arg src u)) as [v|[]]; by eexists _, _, _.
Qed.


(** [has_perm] for an inactive principal: both resolutions stop at the
    first line. *)
Lemma has_perm_inactive (u : User) perm obj st :
  is_active u = false →
  has_perm env u perm obj st = (Ret (VBool false), st).
Proof.
  intros Hu. destruct obj as [obj|]; [|done].
  rewrite (has_perm_after_user u perm obj st (VBool false) st)
    by (by apply resolve_inactive).
  simpl. by rewrite resolve_inactive.
Qed.

(** C6.  For an inactive principal [has_perm] returns [False] and every
    list of permissions is empty, for any permission and entity, and the
    user instance is left exactly as it was: no dictionary is created, read
    or written, no model-level lookup is made and no access method is
    invoked. *)
Theorem inactive_is_refused (u : User) perm st :
  is_active u = false →
  (∀ obj, has_perm env u perm obj st = (Ret (VBool false), st))
  ∧ (∀ obj src,
       _get_object_permission env perm u obj src st = (Ret (VBool false), st))
  ∧ (∀ obj from_name,
       _get_object_permissions env u obj from_name st = (Ret ∅, st)).
Proof.
  intros Hu. split; [|split].
  - intros obj. by apply has_perm_inactive.
  - intros obj src. by apply resolve_inactive.
  - intros [obj|] from_name; [|done]. unfold _get_object_permissions.
    by rewrite Hu.
Qed.



(** C10.  The permission lists of an anonymous principal are empty, active
    or not, and the user instance is untouched.  [has_perm] has no such
    check: for an active anonymous principal a cached grant is answered from
    the dictionary, a missing key starts with the model-level lookup, and
    an access method that grants is invoked, returned and cached. *)
Theorem anonymous_only_stops_the_lists (u : User) perm obj st :
  let key := perm_cache_name SrcUser perm (pk obj) in
  let name := access_fn_name SrcUser perm in
  is_anonymous u = true →
  (∀ o, get_all_permissions env u o st = (Ret ∅, st)
        ∧ get_user_permissions env u o st = (Ret ∅, st)
        ∧ get_group_permissions env u o st = (Ret ∅, st))
  ∧ (is_active u = true →
     (∀ v, cache_of st !! key = Some v → truthy v = true →
           has_perm env u perm (Some obj) st = (Ret v, st))
     ∧ (cache_of st !! key = None →
        ∃ r st' evs, has_perm env u perm (Some obj) st = (r, st')
                     ∧ trace st' = trace st ++ EvHasPerm perm :: evs)
     ∧ (cache_of st !! key = None →
        holds_model_perm env u perm (model_caches st) = true →
        ∀ fn v, attrs obj !! name = Some fn →
                fn (ArgUser u) = Ret v → truthy v = true →
                ∃ st', has_perm env u perm (Some obj) st = (Ret v, st')
                       ∧ cache_of st' !! key = Some v
                       ∧ trace st' = trace st
                                     ++ [EvHasPerm perm; EvCall name (ArgUser u)])).
Proof.
  intros key name Hanon. split.
  - assert (Hlist : ∀ o from_name,
      _get_object_permissions env u o from_name st = (Ret ∅, st)).
    { intros [o|] from_name; [|done]. unfold _get_object_permissions.
      by rewrite Hanon, orb_true_r. }
    intros o. unfold get_all_permissions, get_user_permissions,
      get_group_permissions. by rewrite !Hlist.
  - intros Hu. split; [|split].
    + intros v Hv Htruthy.
      rewrite (has_perm_after_user u perm obj st v st), Htruthy; [done|].
      by apply resolve_hit.
    + intros Hk.
      destruct (_get_object_permission env perm u obj SrcUser st)
        as [[vu|e] sa] eqn:Huser.
      * assert (∃ evs, trace sa = trace st ++ EvHasPerm perm :: evs)
          as [eu Heu].
        { revert Huser. rewrite (resolve_miss u perm obj SrcUser st Hu Hk).
          destruct (holds_model_perm env u perm _); simpl;
            [|intros [= <- <-]; by eexists].
          destruct (attrs obj !! _) as [fn|]; [|intros [= <- <-]; by eexists].
          destruct (fn _) as [v|[]]; intros [= <- <-]; by eexists. }
        rewrite (has_perm_after_user _ _ _ _ _ _ Huser).
        destruct (truthy vu); [by eexists _, _, _|].
        destruct (_get_object_permission env perm u obj SrcGroup sa)
          as [[vg|e] sb] eqn:Hgroup;
          destruct (resolve_trace _ _ _ _ _ _ _ Hgroup) as (eg & Hsb & _);
          eexists _, _, _; (split; [done|]);
          by rewrite Hsb, Heu, <- app_assoc.
      * unfold has_perm. run. rewrite Huser. eexists _, _, _. split; [done|].
        revert Huser. rewrite (resolve_miss u perm obj SrcUser st Hu Hk).
        destruct (holds_model_perm env u perm _); simpl; [|done].
        destruct (attrs obj !! _) as [fn|]; [|done].
        destruct (fn _) as [v|[]]; intros [= <- <-]; done.
    + intros Hk Hhas fn v Hfn Hv Htruthy.
      assert (Hrun : _get_object_permission env perm u obj SrcUser st =
        (Ret v, computed env u perm st (<[key := v]> (cache_of st))
                  [EvCall name (ArgUser u)])).
      { rewrite (resolve_miss u perm obj SrcUser st Hu Hk), Hhas. simpl.
        fold name. by rewrite Hfn, Hv. }
      rewrite (has_perm_after_user _ _ _ _ _ _ Hrun), Htruthy.
      eexists. split; [done|]. split; [|done].
      unfold computed, cache_of; simpl. by rewrite lookup_insert_eq.
Qed.

End Engine.


(** ** Cache keys *)





(** ** Clearing the caches *)

(** The dictionary of decisions is empty after [clear_perm_cache], however
    the call ends. *)
Lemma clear_perm_cache_resets (st : state) :
  cache_of (clear_perm_cache st).2 = ∅.
Proof.
  unfold clear_perm_cache. run.
  destruct (model_caches st) as [[?|] [?|] [?|]]; done.
Qed.

(** The call ends normally exactly when the three model-level caches are
    all there. *)
Lemma clear_perm_cache_completes (st : state) :
  (clear_perm_cache st).1 = Ret tt ↔
  is_Some (_user_perm_cache (model_caches st))
  ∧ is_Some (_group_perm_cache (model_caches st))
  ∧ is_Some (_perm_cache (model_caches st)).
Proof.
  unfold clear_perm_cache. run.
  destruct (model_caches st) as [[?|] [?|] [?|]]; simpl;
    split; try done; intros (? & ? & ?);
    repeat match goal with H : is_Some None |- _ => by destruct H end.
Qed.

(** C9.  On a new instance [clear_perm_cache] does not complete: the
    dictionary of decisions is reset, then [del self._user_perm_cache]
    raises [AttributeError]; and whatever the instance, of two calls in a
    row one raises, the first having deleted what the second deletes. *)
Theorem clear_perm_cache_raises :
  clear_perm_cache OLPMixin_init
  = (Raise (AttributeError "_user_perm_cache"), OLPMixin_init)
  ∧ ∀ st, ∃ e st', (clear_perm_cache;; clear_perm_cache) st = (Raise e, st').
Proof.
  split; [done|]. intros st. unfold clear_perm_cache. run.
  destruct (model_caches st) as [[?|] [?|] [?|]]; simpl; by eexists _, _.
Qed.

(** ** The model-level call and [OLPMixin.has_perm] agree *)

(** [user_obj.has_perm(perm)], as the backend uses it, is
    [OLPMixin.has_perm] without an object. *)
Lemma OLPMixin_has_perm_no_object (env : Env) (u : User) perm st :
  OLPMixin_has_perm env u perm None st =
  match user_has_perm env u perm st with
  | (Ret b, st') => (Ret (VBool b), st')
  | (Raise e, st') => (Raise e, st')
  end.
Proof.
  unfold OLPMixin_has_perm, PermissionsMixin_has_perm, _user_has_perm,
    user_has_perm.
  destruct (DJEM_UNIVERSAL_OLP env), (is_active u), (is_superuser u); simpl;
    try done; run;
    by destruct (model_backend env u perm None (model_caches st)) as [[] ?].
Qed.

(** Through [OLPMixin.has_perm] an inactive principal is answered by the
    other backends alone: this backend adds a refusal and leaves the
    dictionary and the trace as they were. *)
Lemma OLPMixin_has_perm_inactive (env : Env) (u : User) perm obj st :
  is_active u = false →
  OLPMixin_has_perm env u perm obj st =
  let '(granted, d) := model_backend env u perm obj (model_caches st) in
  (Ret (VBool granted), set_model_caches d st).
Proof.
  intros Hu.
  unfold OLPMixin_has_perm, PermissionsMixin_has_perm, _user_has_perm.
  rewrite Hu, andb_false_r. simpl.
  assert (Hrun : ∀ st0, has_perm env u perm obj st0 = (Ret (VBool false), st0)).
  { intros st0. by apply has_perm_inactive. }
  destruct (DJEM_UNIVERSAL_OLP env); simpl; run;
    destruct (model_backend env u perm obj (model_caches st)) as [[] d];
    try done; by rewrite Hrun.
Qed.

(** * The theorems at work *)


Lemma no_model_perm_denies_witness :
  ∃ st',
    has_perm site carol "app.delete" (Some book) OLPMixin_init
    = (Ret (VBool false), st')
    ∧ trace st' = [EvHasPerm "app.delete"; EvHasPerm "app.delete"].
Proof.
  destruct (no_model_perm_denies site carol "app.delete" book OLPMixin_init)
    as [_ (st' & Hrun & _ & _ & Htrace)].
  - reflexivity.
  - intros d. vm_compute. reflexivity.
  - vm_compute. reflexivity.
  - vm_compute. reflexivity.
  - exists st'. split; assumption.
Defined.

(** Against C2 as stated: an inactive principal without the permission is
    denied and nothing is stored; and an active principal without
    [app.view-x] is granted it on book 7 from the entries that [app.view] on
    the book [x-7] left under the same keys. *)
Lemma no_model_perm_counterexample :
  ((∀ d, holds_model_perm site dormant "app.view" d = false)
   ∧ ∃ st',
       _get_object_permission site "app.view" dormant leaflet SrcUser
         OLPMixin_init = (Ret (VBool false), st')
       ∧ cache_of st' !! perm_cache_name SrcUser "app.view" (pk leaflet) = None)
  ∧ ((∀ d, holds_model_perm site alice "app.view-x" d = false)
     ∧ ∃ st1 st2,
         has_perm site alice "app.view" (Some pamphlet) OLPMixin_init
         = (Ret (VBool true), st1)
         ∧ has_perm site alice "app.view-x" (Some book) st1
           = (Ret (VBool true), st2)).
Proof.
  split; (split; [intros d; vm_compute; reflexivity|]).
  - eexists. split; vm_compute; reflexivity.
  - eexists _, _. split; vm_compute; reflexivity.
Qed.



Lemma decisions_are_cached_witness :
  let st1 := (has_perm site alice "app.delete" (Some book) OLPMixin_init).2 in
  has_perm site alice "app.delete" (Some book) st1 = (Ret (VBool true), st1)
  ∧ invocations "_user_can_delete" (trace st1) ≤ 1.
Proof.
  intros st1.
  destruct (decisions_are_cached site alice "app.delete" book)
    as (_ & Htwice & _).
  destruct (Htwice OLPMixin_init (VBool true) st1) as [Hsame Hcount].
  - vm_compute. reflexivity.
  - split; [exact Hsame|]. apply (Hcount "_user_can_delete").
Defined.



Lemma inactive_is_refused_witness :
  has_perm site dormant "app.change" (Some book) OLPMixin_init
  = (Ret (VBool false), OLPMixin_init)
  ∧ get_all_permissions site dormant (Some book) OLPMixin_init
    = (Ret ∅, OLPMixin_init).
Proof.
  destruct (inactive_is_refused site dormant "app.change" OLPMixin_init
              eq_refl) as (Hperm & _ & Hlist).
  split; [apply Hperm | apply Hlist].
Defined.





Lemma anonymous_only_stops_the_lists_witness :
  get_all_permissions site visitor (Some book) OLPMixin_init
  = (Ret ∅, OLPMixin_init)
  ∧ ∃ st',
      has_perm site visitor "app.delete" (Some book) OLPMixin_init
      = (Ret (VBool true), st').
Proof.
  destruct (anonymous_only_stops_the_lists site visitor "app.delete" book
              OLPMixin_init eq_refl) as [Hlist Hperm].
  split; [apply (Hlist (Some book))|].
  destruct (Hperm eq_refl) as (_ & _ & Hcall).
  destruct (Hcall eq_refl eq_refl owner_only (VBool true)
              eq_refl eq_refl eq_refl) as (st' & Hrun & _).
  exists st'. exact Hrun.
Defined.

(** ** Scenarios *)

(** The lists of permissions on the book: the owner may delete it, the
    editors may change it, everybody with the model-level permission may
    view it. *)
Example alice_permissions :
  (get_all_permissions site alice (Some book) OLPMixin_init).1
  = Ret {["app.view"; "app.delete"]}.
Proof. vm_compute. reflexivity. Qed.

Example bob_permissions :
  (get_all_permissions site bob (Some book) OLPMixin_init).1
  = Ret {["app.view"; "app.change"]}
  ∧ (get_user_permissions site bob (Some book) OLPMixin_init).1
    = Ret {["app.view"; "app.change"]}
  ∧ (get_group_permissions site bob (Some book) OLPMixin_init).1
    = Ret {["app.view"; "app.change"; "app.delete"]}.
Proof. repeat split; vm_compute; reflexivity. Qed.

(** A grant of the user source leaves the group source unresolved: one
    model-level lookup, one invocation, one entry. *)
Example user_grant_short_circuits :
  has_perm site alice "app.delete" (Some book) OLPMixin_init
  = (Ret (VBool true),
     mkState (Some {["user-app.delete-7" := VBool true]}) filled
       [EvHasPerm "app.delete"; EvCall "_user_can_delete" (ArgUser alice)]).
Proof. vm_compute. reflexivity. Qed.

(** Under universal enforcement a superuser goes through the access
    methods like anybody else. *)
Example universal_superuser_is_checked :
  (OLPMixin_has_perm strict_site root "app.delete" (Some book) OLPMixin_init).1
  = Ret (VBool false)
  ∧ (OLPMixin_has_perm strict_site root "app.delete" None OLPMixin_init).1
    = Ret (VBool true).
Proof. split; vm_compute; reflexivity. Qed.

(** Against C4 as stated: an access method that fails leaves no decision,
    and the second of two calls invokes it again. *)
Lemma decisions_are_cached_counterexample :
  let once := has_perm site alice "app.delete" (Some faulty) OLPMixin_init in
  let twice := has_perm site alice "app.delete" (Some faulty) once.2 in
  once.1 = Raise (OtherError "TypeError")
  ∧ cache_of once.2 = ∅
  ∧ twice.1 = Raise (OtherError "TypeError")
  ∧ invocations "_user_can_delete" (trace twice.2) = 2.
Proof. repeat split; vm_compute; reflexivity. Qed.

(** After a lookup has filled the model-level caches [clear_perm_cache]
    completes, and the next [has_perm] computes again. *)
Example clear_then_recompute :
  let st1 := (has_perm site alice "app.delete" (Some book) OLPMixin_init).2 in
  let st2 := (clear_perm_cache st1).2 in
  (clear_perm_cache st1).1 = Ret tt
  ∧ cache_of st2 = ∅
  ∧ invocations "_user_can_delete"
      (trace (has_perm site alice "app.delete" (Some book) st2).2) = 2.
Proof. repeat split; vm_compute; reflexivity. Qed.

(** * The named logs *)

Section OrderedDict.
Context {V : Type}.
Implicit Types (d rest : Logs.odict V) (k : string) (v : V).

Lemma od_popitem_Some d item rest :
  Logs.od_popitem d = Some (item, rest) ↔ d = rest ++ [item].
Proof.
  unfold Logs.od_popitem. split.
  - destruct (rev d) as [|x before] eqn:Hrev; [done|]. intros [= <- <-].
    rewrite <- (rev_involutive d), Hrev. done.
  - intros ->. rewrite rev_app_distr. simpl. by rewrite rev_involutive.
Qed.

Lemma od_popitem_None d : Logs.od_popitem d = None ↔ d = [].
Proof.
  unfold Logs.od_popitem. split.
  - destruct (rev d) eqn:Hrev; [|done]. intros _.
    by rewrite <- (rev_involutive d), Hrev.
  - by intros ->.
Qed.

Lemma od_get_None d k : Logs.od_get k d = None ↔ k ∉ d.*1.
Proof.
  induction d as [|[k' v'] d IH]; simpl.
  - split; [intros _; apply not_elem_of_nil | done].
  - rewrite not_elem_of_cons. destruct (decide (k' = k)).
    + split; [done | intros [? _]; congruence].
    + rewrite IH. split; [intros ?; split; [congruence | done] | by intros [_ ?]].
Qed.

Lemma od_set_fresh d k v :
  Logs.od_get k d = None → Logs.od_set k v d = d ++ [(k, v)].
Proof.
  induction d as [|[k' v'] d IH]; simpl; [done|].
  destruct (decide (k' = k)); [done|]. intros Hk. by rewrite IH.
Qed.

Lemma od_get_set d k v : Logs.od_get k (Logs.od_set k v d) = Some v.
Proof.
  induction d as [|[k' v'] d IH]; simpl.
  - by rewrite decide_True.
  - destruct (decide (k' = k)); simpl; [by rewrite decide_True|].
    by rewrite decide_False.
Qed.

Lemma od_get_set_ne d k k' v :
  k ≠ k' → Logs.od_get k' (Logs.od_set k v d) = Logs.od_get k' d.
Proof.
  intros Hne. induction d as [|[k0 v0] d IH]; simpl.
  - by rewrite decide_False.
  - destruct (decide (k0 = k)) as [->|]; simpl.
    + by rewrite !decide_False.
    + destruct (decide (k0 = k')); [done | exact IH].
Qed.

Lemma od_keys_set d k v :
  (Logs.od_set k v d).*1
  = match Logs.od_get k d with Some _ => d.*1 | None => d.*1 ++ [k] end.
Proof.
  induction d as [|[k' v'] d IH]; [done|].
  cbn [Logs.od_set Logs.od_get].
  destruct (decide (k' = k)) as [->|]; [done|].
  rewrite !fmap_cons, IH. by destruct (Logs.od_get k d).
Qed.

Lemma od_wf_set d k v : Logs.od_wf d → Logs.od_wf (Logs.od_set k v d).
Proof.
  unfold Logs.od_wf. rewrite od_keys_set.
  destruct (Logs.od_get k d) eqn:Hk; [done|].
  intros Hd. apply NoDup_app. split; [done|]. split.
  - intros x Hx ->%list_elem_of_singleton. by apply od_get_None in Hk.
  - apply NoDup_singleton.
Qed.

Lemma od_get_pop d k : Logs.od_get k (Logs.od_pop k d) = None.
Proof.
  apply od_get_None. unfold Logs.od_pop.
  intros ([k' v'] & -> & Hin)%list_elem_of_fmap.
  by apply list_elem_of_filter in Hin as [? _].
Qed.

Lemma od_get_pop_ne d k k' :
  k ≠ k' → Logs.od_get k' (Logs.od_pop k d) = Logs.od_get k' d.
Proof.
  intros Hne. unfold Logs.od_pop.
  induction d as [|[k0 v0] d IH]; [done|].
  destruct (decide (k0 = k)) as [->|Hk].
  - rewrite filter_cons_False by (simpl; tauto).
    simpl. by rewrite decide_False.
  - rewrite filter_cons_True by done. simpl. by rewrite IH.
Qed.

Lemma od_wf_pop d k : Logs.od_wf d → Logs.od_wf (Logs.od_pop k d).
Proof.
  unfold Logs.od_wf, Logs.od_pop. induction d as [|[k0 v0] d IH]; [done|].
  rewrite fmap_cons. intros [Hk0 Hd]%NoDup_cons.
  destruct (decide (k0 = k)) as [->|Hk].
  - rewrite filter_cons_False by (simpl; tauto). by apply IH.
  - rewrite filter_cons_True by done. rewrite fmap_cons.
    apply NoDup_cons. split; [|by apply IH].
    intros ([k' v'] & Heq & Hin)%list_elem_of_fmap. simpl in Heq. subst k'.
    apply list_elem_of_filter in Hin as [_ Hin]. apply Hk0.
    apply list_elem_of_fmap. by exists (k0, v').
Qed.

Lemma od_pop_absent d k : Logs.od_get k d = None → Logs.od_pop k d = d.
Proof.
  unfold Logs.od_pop. induction d as [|[k0 v0] d IH]; [done|]. simpl.
  destruct (decide (k0 = k)); [done|]. intros Hk.
  rewrite filter_cons_True by done. by rewrite IH.
Qed.

(** The last item of a well-formed dictionary has a key of its own. *)
Lemma od_wf_last rest k v :
  Logs.od_wf (rest ++ [(k, v)]) →
  Logs.od_wf rest ∧ Logs.od_get k rest = None.
Proof.
  unfold Logs.od_wf. rewrite fmap_app. simpl.
  intros (Hrest & Hk & _)%NoDup_app. split; [done|].
  apply od_get_None. intros Hin. by apply (Hk k Hin), list_elem_of_singleton.
Qed.

Lemma od_get_last rest k v :
  Logs.od_get k rest = None → Logs.od_get k (rest ++ [(k, v)]) = Some v.
Proof. intros Hk. by rewrite <- (od_set_fresh _ _ v Hk), od_get_set. Qed.

End OrderedDict.

(** [log] appends to the log started last. *)
Lemma log_current (d : Logs.odict (list string)) fin name l lines :
  Logs.od_get name d = None →
  Logs.log lines (Logs.mkLogs (d ++ [(name, l)]) fin)
  = (Logs.Done tt, Logs.mkLogs (d ++ [(name, l ++ lines)]) fin).
Proof.
  intros Hname. unfold Logs.log. simpl.
  rewrite (proj2 (od_popitem_Some (d ++ [(name, l)]) (name, l) d) eq_refl).
  by rewrite od_set_fresh.
Qed.

Lemma log_each_current (d : Logs.odict (list string)) fin name l batches :
  Logs.od_get name d = None →
  Logs.log_each batches (Logs.mkLogs (d ++ [(name, l)]) fin)
  = (Logs.Done tt, Logs.mkLogs (d ++ [(name, l ++ concat batches)]) fin).
Proof.
  intros Hname. revert l. induction batches as [|lines batches IH]; intros l.
  - simpl. by rewrite app_nil_r.
  - simpl. rewrite log_current by done. rewrite IH. by rewrite <- app_assoc.
Qed.

(** [end_log] moves the log started last to the end of the finished
    ones. *)
Lemma end_log_current (d : Logs.odict (list string)) fin name l :
  Logs.od_get name d = None →
  Logs.end_log (Logs.mkLogs (d ++ [(name, l)]) fin)
  = (Logs.Done tt,
     Logs.mkLogs d (Logs.od_pop name fin ++ [(name, l)])).
Proof.
  intros Hname. unfold Logs.end_log. simpl.
  rewrite (proj2 (od_popitem_Some (d ++ [(name, l)]) (name, l) d) eq_refl).
  f_equal. f_equal. destruct (Logs.od_get name fin) eqn:Hfin.
  - by rewrite od_set_fresh by apply od_get_pop.
  - rewrite od_set_fresh by done. by rewrite od_pop_absent.
Qed.

(** What the two getters return when [name] was finished last. *)
Lemma getters_last (act d : Logs.odict (list string)) name l raw :
  Logs.od_get name d = None →
  let st := Logs.mkLogs act (d ++ [(name, l)]) in
  Logs.get_log name raw st = (Logs.Done (Logs.render raw l), st)
  ∧ Logs.get_last_log raw st = (Logs.Done (Logs.render raw l), st).
Proof.
  intros Hname st. unfold Logs.get_log, Logs.get_last_log. simpl. split.
  - by rewrite od_get_last.
  - rewrite (proj2 (od_popitem_Some (d ++ [(name, l)]) (name, l) d) eq_refl).
    by rewrite od_set_fresh.
Qed.

(** X1.  Write and read back: a log that is started under a name that is
    not active, written by any number of [log] calls and ended, is what
    [get_log] returns for the name and what [get_last_log] returns: the
    lines of all the calls in order.  The active logs are as before, and
    so is every other finished log. *)
Theorem log_round_trip (st : Logs.logs) name batches raw :
  Logs.od_get name (Logs._active_logs st) = None →
  ∃ st',
    Logs.and_then (Logs.start_log name)
      (Logs.and_then (Logs.log_each batches) Logs.end_log) st
    = (Logs.Done tt, st')
    ∧ Logs.get_log name raw st'
      = (Logs.Done (Logs.render raw (concat batches)), st')
    ∧ Logs.get_last_log raw st'
      = (Logs.Done (Logs.render raw (concat batches)), st')
    ∧ Logs._active_logs st' = Logs._active_logs st
    ∧ ∀ other, other ≠ name →
        Logs.od_get other (Logs._finished_logs st')
        = Logs.od_get other (Logs._finished_logs st).
Proof.
  intros Hname. destruct st as [act fin]. simpl in Hname.
  unfold Logs.and_then, Logs.start_log. simpl. rewrite Hname.
  rewrite od_set_fresh by done. rewrite log_each_current by done.
  rewrite end_log_current by done. simpl.
  eexists. split; [done|].
  destruct (getters_last act (Logs.od_pop name fin) name (concat batches) raw)
    as [Hget Hlast]; [apply od_get_pop|].
  split; [exact Hget|]. split; [exact Hlast|]. split; [done|].
  intros other Hother. simpl.
  rewrite <- (od_set_fresh _ _ (concat batches) (od_get_pop fin name)).
  rewrite od_get_set_ne by done. by apply od_get_pop_ne.
Qed.

Lemma od_get_app {V} (d1 d2 : Logs.odict V) k :
  Logs.od_get k (d1 ++ d2)
  = match Logs.od_get k d1 with
    | Some v => Some v
    | None => Logs.od_get k d2
    end.
Proof.
  induction d1 as [|[k' v'] d1 IH]; simpl; [done|].
  by destruct (decide (k' = k)).
Qed.

(** X2.  Logs nest: lines go to the log started last, and ending it
    makes the one started before it current again.  An inner log started
    and ended inside an outer one holds the lines written in between, the
    outer log holds the lines written after, and the outer log, ended last,
    is the one [get_last_log] returns. *)
Theorem log_nesting (st : Logs.logs) outer inner x y raw :
  Logs.od_get outer (Logs._active_logs st) = None →
  Logs.od_get inner (Logs._active_logs st) = None →
  outer ≠ inner →
  ∃ st',
    Logs.and_then (Logs.start_log outer)
      (Logs.and_then (Logs.start_log inner)
         (Logs.and_then (Logs.log x)
            (Logs.and_then Logs.end_log
               (Logs.and_then (Logs.log y) Logs.end_log)))) st
    = (Logs.Done tt, st')
    ∧ Logs.get_log inner raw st' = (Logs.Done (Logs.render raw x), st')
    ∧ Logs.get_log outer raw st' = (Logs.Done (Logs.render raw y), st')
    ∧ Logs.get_last_log raw st' = (Logs.Done (Logs.render raw y), st')
    ∧ Logs._active_logs st' = Logs._active_logs st.
Proof.
  intros Houter Hinner Hne. destruct st as [act fin]. simpl in *.
  assert (Hinner' : Logs.od_get inner (act ++ [(outer, [])]) = None).
  { rewrite od_get_app, Hinner. simpl. by rewrite decide_False. }
  unfold Logs.and_then, Logs.start_log. simpl. rewrite Houter.
  rewrite (od_set_fresh act) by done. simpl. rewrite Hinner'.
  rewrite od_set_fresh by done.
  rewrite log_current by done. rewrite end_log_current by done.
  rewrite log_current by done. rewrite end_log_current by done. simpl.
  eexists. split; [done|].
  set (F := Logs.od_pop inner fin ++ [(inner, x)]).
  destruct (getters_last act (Logs.od_pop outer F) outer y raw)
    as [Hget Hlast]; [apply od_get_pop|].
  split; [|split; [exact Hget|split; [exact Hlast|done]]].
  unfold Logs.get_log. simpl.
  rewrite <- (od_set_fresh _ _ y (od_get_pop F outer)).
  rewrite od_get_set_ne, od_get_pop_ne by done.
  unfold F. by rewrite od_get_last by apply od_get_pop.
Qed.

(** X3.  A name stays taken while its log is active: once [start_log] has
    succeeded, any number of [log] calls succeed, and a second [start_log]
    for the name then fails with [ValueError] and changes nothing. *)
Theorem log_name_stays_taken (st st1 : Logs.logs) name batches :
  Logs.start_log name st = (Logs.Done tt, st1) →
  ∃ st2,
    Logs.log_each batches st1 = (Logs.Done tt, st2)
    ∧ Logs.start_log name st2
      = (Logs.Failed
           (Logs.ValueError ("A log named " +:+ Logs.quote +:+ name
                             +:+ Logs.quote +:+ " is already active.")),
         st2).
Proof.
  destruct st as [act fin]. unfold Logs.start_log at 1. simpl.
  destruct (Logs.od_get name act) eqn:Hname; [done|]. intros [= <-].
  rewrite od_set_fresh by done. rewrite log_each_current by done.
  eexists. split; [done|]. unfold Logs.start_log. simpl.
  by rewrite od_get_last.
Qed.

(** X4.  When the calls fail.  [end_log] and [log] succeed exactly when a
    log is active, [get_last_log] exactly when a log has been finished,
    [get_log] exactly when a log of that name has been finished, and
    [start_log] exactly when the name is not active; a call that fails
    leaves both dictionaries as they were. *)
Theorem log_failures (st : Logs.logs) name lines raw :
  ((∃ st', Logs.end_log st = (Logs.Done tt, st'))
     ↔ Logs._active_logs st ≠ [])
  ∧ ((∃ st', Logs.log lines st = (Logs.Done tt, st'))
     ↔ Logs._active_logs st ≠ [])
  ∧ ((∃ r st', Logs.get_last_log raw st = (Logs.Done r, st'))
     ↔ Logs._finished_logs st ≠ [])
  ∧ ((∃ r st', Logs.get_log name raw st = (Logs.Done r, st'))
     ↔ is_Some (Logs.od_get name (Logs._finished_logs st)))
  ∧ ((∃ st', Logs.start_log name st = (Logs.Done tt, st'))
     ↔ Logs.od_get name (Logs._active_logs st) = None)
  ∧ (∀ e st',
       Logs.end_log st = (Logs.Failed e, st')
       ∨ Logs.log lines st = (Logs.Failed e, st')
       ∨ Logs.get_last_log raw st = (Logs.Failed e, st')
       ∨ Logs.get_log name raw st = (Logs.Failed e, st')
       ∨ Logs.start_log name st = (Logs.Failed e, st') →
       st' = st).
Proof.
  destruct st as [act fin].
  unfold Logs.end_log, Logs.log, Logs.get_last_log, Logs.get_log,
    Logs.start_log. simpl.
  assert (Hact : match Logs.od_popitem act with
                 | Some _ => act ≠ [] | None => act = [] end).
  { destruct (Logs.od_popitem act) eqn:E; [|by apply od_popitem_None].
    intros Hnil. apply od_popitem_None in Hnil. congruence. }
  assert (Hfin : match Logs.od_popitem fin with
                 | Some _ => fin ≠ [] | None => fin = [] end).
  { destruct (Logs.od_popitem fin) eqn:E; [|by apply od_popitem_None].
    intros Hnil. apply od_popitem_None in Hnil. congruence. }
  destruct (Logs.od_popitem act) as [[[n l] rest]|];
    destruct (Logs.od_popitem fin) as [[[n' l'] rest']|];
    destruct (Logs.od_get name fin);
    destruct (Logs.od_get name act).
  all: repeat match goal with
              | |- _ ↔ _ => split
              | |- _ ∧ _ => split
              | |- _ → _ => intro
              | H : ∃ _, _ |- _ => destruct H
              | H : _ ∨ _ |- _ => destruct H
              | H : is_Some None |- _ => destruct H as [? [=]]
              end.
  all: try congruence; try done; eauto.
Qed.

(** The keys of both dictionaries stay distinct, whatever is called and
    however the call ends; they are distinct on a new instance. *)
Lemma logs_wf_preserved (st : Logs.logs) name lines raw :
  Logs.wf st →
  Logs.wf (Logs.start_log name st).2
  ∧ Logs.wf (Logs.end_log st).2
  ∧ Logs.wf (Logs.log lines st).2
  ∧ Logs.wf (Logs.get_log name raw st).2
  ∧ Logs.wf (Logs.get_last_log raw st).2.
Proof.
  destruct st as [act fin]. intros Hwf. pose proof Hwf as [Hact Hfin].
  simpl in *.
  unfold Logs.start_log, Logs.end_log, Logs.log, Logs.get_log,
    Logs.get_last_log. simpl.
  assert (Hrest : ∀ (d : Logs.odict (list string)) item rest,
            Logs.od_wf d → Logs.od_popitem d = Some (item, rest) →
            Logs.od_wf rest).
  { intros d [k v] rest Hd ->%od_popitem_Some.
    by apply od_wf_last in Hd as [? _]. }
  split_and!.
  - destruct (Logs.od_get name act); simpl; [done|].
    split; [by apply od_wf_set | done].
  - destruct (Logs.od_popitem act) as [[[n l] rest]|] eqn:E; simpl; [|done].
    split; simpl; [by apply (Hrest act (n, l))|].
    apply od_wf_set. destruct (Logs.od_get n fin); [by apply od_wf_pop|done].
  - destruct (Logs.od_popitem act) as [[[n l] rest]|] eqn:E; simpl; [|done].
    split; simpl; [|done]. apply od_wf_set. by apply (Hrest act (n, l)).
  - by destruct (Logs.od_get name fin).
  - destruct (Logs.od_popitem fin) as [[[n l] rest]|] eqn:E; simpl; [|done].
    split; simpl; [done|]. apply od_wf_set. by apply (Hrest fin (n, l)).
Qed.

Lemma logs_wf_init : Logs.wf Logs.init.
Proof. split; apply NoDup_nil_2. Qed.

(** X5.  Reading changes nothing: [get_last_log] takes the last finished
    log out of the dictionary and puts it back, which leaves the
    dictionary as it was, and what it returns is the log that [get_log]
    returns for the name finished last. *)
Theorem get_last_log_reads_only (st : Logs.logs) raw :
  Logs.wf st →
  (Logs.get_last_log raw st).2 = st
  ∧ ∀ rest name l,
      Logs._finished_logs st = rest ++ [(name, l)] →
      Logs.get_last_log raw st = (Logs.Done (Logs.render raw l), st)
      ∧ Logs.get_log name raw st = (Logs.Done (Logs.render raw l), st).
Proof.
  destruct st as [act fin]. intros [_ Hfin]. simpl in *.
  assert (Hlast : ∀ rest name l, fin = rest ++ [(name, l)] →
            Logs.get_last_log raw (Logs.mkLogs act fin)
            = (Logs.Done (Logs.render raw l), Logs.mkLogs act fin)
            ∧ Logs.get_log name raw (Logs.mkLogs act fin)
              = (Logs.Done (Logs.render raw l), Logs.mkLogs act fin)).
  { intros rest name l ->. apply od_wf_last in Hfin as [_ Hname].
    destruct (getters_last act rest name l raw Hname). done. }
  split; [|exact Hlast].
  destruct (Logs.od_popitem fin) as [[[name l] rest]|] eqn:E.
  - apply od_popitem_Some in E. by rewrite (proj1 (Hlast rest name l E)).
  - unfold Logs.get_last_log. simpl. by rewrite E.
Qed.

Lemma log_round_trip_witness :
  ∃ st',
    Logs.get_log "audit" true st'
    = (Logs.Done (Logs.Lines ["one"; "two"; "three"]), st')
    ∧ Logs.get_last_log false st'
      = (Logs.Done (Logs.Text ("one" +:+ Logs.newline +:+ "two"
                               +:+ Logs.newline +:+ "three")), st').
Proof.
  destruct (log_round_trip Logs.init "audit" [["one"]; ["two"; "three"]] true
              eq_refl) as (st' & Hrun & Hget & _).
  destruct (log_round_trip Logs.init "audit" [["one"]; ["two"; "three"]] false
              eq_refl) as (st2 & Hrun2 & _ & Hlast & _).
  rewrite Hrun in Hrun2. injection Hrun2 as <-.
  exists st'. split; [exact Hget | exact Hlast].
Defined.

Lemma log_nesting_witness :
  ∃ st',
    Logs.get_log "inner" true st' = (Logs.Done (Logs.Lines ["x"]), st')
    ∧ Logs.get_log "outer" true st' = (Logs.Done (Logs.Lines ["y"]), st').
Proof.
  destruct (log_nesting Logs.init "outer" "inner" ["x"] ["y"] true
              eq_refl eq_refl) as (st' & _ & Hinner & Houter & _).
  - discriminate.
  - exists st'. split; [exact Hinner | exact Houter].
Defined.

Lemma log_name_stays_taken_witness :
  ∃ st2 e, Logs.start_log "audit" st2 = (Logs.Failed (Logs.ValueError e), st2).
Proof.
  destruct (log_name_stays_taken Logs.init
              (Logs.start_log "audit" Logs.init).2 "audit" [["one"]]
              eq_refl) as (st2 & _ & Hfail).
  exists st2. eexists. exact Hfail.
Defined.

Lemma get_last_log_reads_only_witness :
  let st := Logs.mkLogs [] [("first", ["a"]); ("second", ["b"])] in
  Logs.get_last_log true st = (Logs.Done (Logs.Lines ["b"]), st).
Proof.
  intros st.
  assert (Hwf : Logs.wf st).
  { split; [apply NoDup_nil_2|]. unfold Logs.od_wf. simpl.
    apply NoDup_cons. split; [|apply NoDup_singleton].
    intros Hin%list_elem_of_singleton. discriminate. }
  destruct (get_last_log_reads_only st true Hwf) as [_ Hlast].
  apply (Hlast [("first", ["a"])] "second" ["b"]). reflexivity.
Defined.

(** * The lists of permissions *)

Section Lists.
Context (env : Env).

(** Entries are only ever added to the dictionary: a resolution leaves
    every entry it finds as it is, however it ends. *)
Lemma resolve_keeps (u : User) perm obj src st r st1 k v :
  _get_object_permission env perm u obj src st = (r, st1) →
  cache_of st !! k = Some v → cache_of st1 !! k = Some v.
Proof.
  intros Hrun Hk.
  destruct (decide (k = perm_cache_name src perm (pk obj))) as [->|Hne].
  - destruct (is_active u) eqn:Hu.
    + rewrite (resolve_hit env u perm obj src st v Hu Hk) in Hrun.
      by injection Hrun as <- <-.
    + rewrite (resolve_inactive env u perm obj src st Hu) in Hrun.
      by injection Hrun as <- <-.
  - by rewrite (resolve_frame env u perm obj src st r st1 k Hrun Hne).
Qed.

(** One round of the loop of [_get_object_permissions] without a filter:
    the user source, then the group source unless the user source
    granted. *)
Lemma collect_all_step (u : User) obj perm todo acc st :
  collect_perms env u obj None (perm :: todo) acc st =
  match _get_object_permission env perm u obj SrcUser st with
  | (Raise e, s1) => (Raise e, s1)
  | (Ret vu, s1) =>
      if truthy vu then collect_perms env u obj None todo ({[perm]} ∪ acc) s1
      else
        match _get_object_permission env perm u obj SrcGroup s1 with
        | (Raise e, s2) => (Raise e, s2)
        | (Ret vg, s2) =>
            collect_perms env u obj None todo
              (if truthy vg || (is_None vu && is_None vg)
               then {[perm]} ∪ acc else acc) s2
        end
  end.
Proof.
  simpl. run.
  destruct (_get_object_permission env perm u obj SrcUser st)
    as [[vu|e] s1]; [|done].
  destruct (truthy vu); simpl; [done|].
  by destruct (_get_object_permission env perm u obj SrcGroup s1)
    as [[vg|e] s2].
Qed.

(** One round with a filter: the one source, and a permission is kept
    when that source grants or has no opinion. *)
Lemma collect_one_step (u : User) obj src perm todo acc st :
  collect_perms env u obj (Some src) (perm :: todo) acc st =
  match _get_object_permission env perm u obj src st with
  | (Raise e, s1) => (Raise e, s1)
  | (Ret v, s1) =>
      collect_perms env u obj (Some src) todo
        (if truthy v || is_None v then {[perm]} ∪ acc else acc) s1
  end.
Proof.
  simpl. run. destruct src; simpl.
  - destruct (_get_object_permission env perm u obj SrcUser st)
      as [[v|e] s1]; [|done].
    rewrite andb_false_r. simpl. by rewrite orb_false_r, andb_true_r.
  - by destruct (_get_object_permission env perm u obj SrcGroup st)
      as [[v|e] s1].
Qed.

(** The case analysis of one round, for any filter. *)
Ltac round from_name u obj perm st :=
  destruct from_name as [?src|];
  [ rewrite collect_one_step;
    destruct (_get_object_permission env perm u obj src st)
      as [[?v|?e] ?s1] eqn:?Hsrc
  | rewrite collect_all_step;
    destruct (_get_object_permission env perm u obj SrcUser st)
      as [[?vu|?e] ?s1] eqn:?Huser;
    [ destruct (truthy vu) eqn:?Htruthy;
      [ | destruct (_get_object_permission env perm u obj SrcGroup s1)
            as [[?vg|?e] ?s2] eqn:?Hgroup ]
    | ] ].

Lemma collect_within (u : User) obj from_name todo acc st perms st' :
  collect_perms env u obj from_name todo acc st = (Ret perms, st') →
  ∀ p, p ∈ perms → p ∈ acc ∨ p ∈ todo.
Proof.
  revert acc st. induction todo as [|perm todo IH]; intros acc st.
  - intros [= <- <-] p Hp. by left.
  - round from_name u obj perm st; try done.
    all: intros Hrest p Hp; destruct (IH _ _ Hrest p Hp) as [Hacc|Htodo];
      [|right; by apply list_elem_of_further].
    all: repeat case_match; try (by left).
    all: apply elem_of_union in Hacc as [->%elem_of_singleton|Hacc];
      [right; apply list_elem_of_here | by left].
Qed.

(** X6.  A list of permissions never holds a permission that is not in
    the catalogue of the entity's model, for any principal, filter and
    state of the user instance. *)
Theorem permissions_within_catalogue (u : User) obj from_name st perms st' :
  _get_object_permissions env u obj from_name st = (Ret perms, st') →
  ∀ p, p ∈ perms →
       ∃ entity, obj = Some entity ∧ p ∈ perms_for_model env entity.
Proof.
  unfold _get_object_permissions. destruct obj as [entity|].
  2:{ intros [= <- <-] p Hp. by apply not_elem_of_empty in Hp. }
  destruct (negb (is_active u) || is_anonymous u).
  { intros [= <- <-] p Hp. by apply not_elem_of_empty in Hp. }
  destruct (is_superuser u && negb (DJEM_UNIVERSAL_OLP env)).
  { intros [= <- <-] p Hp. exists entity. split; [done|].
    by apply elem_of_list_to_set in Hp. }
  intros Hloop p Hp. exists entity. split; [done|].
  destruct (collect_within _ _ _ _ _ _ _ _ Hloop p Hp) as [Hempty|Hin];
    [by apply not_elem_of_empty in Hempty | done].
Qed.

Lemma collect_keeps (u : User) obj from_name todo acc st r st' k v :
  collect_perms env u obj from_name todo acc st = (r, st') →
  cache_of st !! k = Some v → cache_of st' !! k = Some v.
Proof.
  revert acc st. induction todo as [|perm todo IH]; intros acc st.
  - by intros [= <- <-].
  - round from_name u obj perm st.
    all: try (intros Hrest Hk; eapply IH; [exact Hrest|]).
    all: try (intros [= <- <-] Hk).
    all: repeat (eapply resolve_keeps; [eassumption|]); done.
Qed.

Lemma has_perm_keeps (u : User) perm obj st r st' k v :
  has_perm env u perm obj st = (r, st') →
  cache_of st !! k = Some v → cache_of st' !! k = Some v.
Proof.
  destruct obj as [obj|]; [|by intros [= <- <-]].
  destruct (_get_object_permission env perm u obj SrcUser st)
    as [[vu|e] s1] eqn:Huser.
  2:{ unfold has_perm. run. rewrite Huser. intros [= <- <-] Hk.
      by eapply resolve_keeps. }
  rewrite (has_perm_after_user env u perm obj st vu s1 Huser).
  destruct (truthy vu).
  - intros [= <- <-] Hk. by eapply resolve_keeps.
  - destruct (_get_object_permission env perm u obj SrcGroup s1)
      as [[vg|e] s2] eqn:Hgroup; intros [= <- <-] Hk;
      apply (resolve_keeps u perm obj SrcGroup s1 _ _ k v Hgroup);
      apply (resolve_keeps u perm obj SrcUser st _ _ k v Huser Hk).
Qed.

(** X7.  Decisions are only ever added: whatever is asked of the backend,
    one source, [has_perm] or a list of permissions, and however the call
    ends, every entry that was in the dictionary before is there after,
    with the same value. *)
Theorem cache_only_grows (u : User) st k v :
  cache_of st !! k = Some v →
  (∀ perm obj src,
     cache_of (_get_object_permission env perm u obj src st).2 !! k = Some v)
  ∧ (∀ perm obj, cache_of (has_perm env u perm obj st).2 !! k = Some v)
  ∧ (∀ obj from_name,
       cache_of (_get_object_permissions env u obj from_name st).2 !! k
       = Some v).
Proof.
  intros Hk. split_and!.
  - intros perm obj src.
    destruct (_get_object_permission env perm u obj src st) as [r st'] eqn:E.
    by eapply resolve_keeps.
  - intros perm obj.
    destruct (has_perm env u perm obj st) as [r st'] eqn:E.
    by eapply has_perm_keeps.
  - intros obj from_name.
    destruct (_get_object_permissions env u obj from_name st)
      as [r st'] eqn:E.
    revert E. unfold _get_object_permissions. destruct obj as [entity|].
    2:{ by intros [= <- <-]. }
    destruct (negb (is_active u) || is_anonymous u); [by intros [= <- <-]|].
    destruct (is_superuser u && negb (DJEM_UNIVERSAL_OLP env));
      [by intros [= <- <-]|].
    intros Hloop. by eapply collect_keeps.
Qed.

Lemma cached_verdict_mono (c c' : gmap string pyval) p obj b :
  (∀ k v, c !! k = Some v → c' !! k = Some v) →
  cached_verdict c p obj = Some b → cached_verdict c' p obj = Some b.
Proof.
  intros Hmono. unfold cached_verdict.
  destruct (c !! perm_cache_name SrcUser p (pk obj)) as [vu|] eqn:Hu; [|done].
  rewrite (Hmono _ _ Hu). destruct (truthy vu); [done|].
  destruct (c !! perm_cache_name SrcGroup p (pk obj)) as [vg|] eqn:Hg; [|done].
  by rewrite (Hmono _ _ Hg).
Qed.

(** With both decisions in the dictionary [has_perm] answers from it and
    changes nothing. *)
Lemma has_perm_from_cache (u : User) p obj st b :
  is_active u = true →
  cached_verdict (cache_of st) p obj = Some b →
  ∃ v, has_perm env u p (Some obj) st = (Ret v, st) ∧ truthy v = b.
Proof.
  intros Hu. unfold cached_verdict.
  destruct (cache_of st !! perm_cache_name SrcUser p (pk obj))
    as [vu|] eqn:Hku; [|done].
  rewrite (has_perm_after_user env u p obj st vu st)
    by (by apply resolve_hit).
  destruct (truthy vu) eqn:Htu; [intros [= <-]; by exists vu|].
  destruct (cache_of st !! perm_cache_name SrcGroup p (pk obj))
    as [vg|] eqn:Hkg; [|done].
  rewrite (resolve_hit env u p obj SrcGroup st vg Hu Hkg). intros [= <-].
  eexists. split; [done|]. unfold py_or.
  destruct (truthy vg) eqn:Htg; simpl; done.
Qed.

(** The loop without a filter leaves the decisions of every permission it
    went through in the dictionary, and keeps the permissions whose
    decisions grant. *)
Lemma collect_all_verdicts (u : User) obj todo acc st perms st' :
  is_active u = true →
  collect_perms env u obj None todo acc st = (Ret perms, st') →
  (∀ p, p ∈ todo → is_Some (cached_verdict (cache_of st') p obj))
  ∧ (∀ p, p ∈ perms ↔
          p ∈ acc
          ∨ (p ∈ todo ∧ cached_verdict (cache_of st') p obj = Some true)).
Proof.
  intros Hu. revert acc st. induction todo as [|perm todo IH]; intros acc st.
  { intros [= <- <-]. split.
    - intros p Hp. by apply not_elem_of_nil in Hp.
    - intros p. split; [by left|]. intros [?|[Hp _]]; [done|].
      by apply not_elem_of_nil in Hp. }
  rewrite collect_all_step.
  destruct (_get_object_permission env perm u obj SrcUser st)
    as [[vu|e] s1] eqn:Huser; [|done].
  pose proof (resolve_caches env u perm obj SrcUser st vu s1 Hu Huser) as Hcu.
  intros Hrest.
  assert (∃ s2 b,
    collect_perms env u obj None todo (if b : bool then {[perm]} ∪ acc else acc)
      s2 = (Ret perms, st')
    ∧ cached_verdict (cache_of s2) perm obj = Some b)
    as (s2 & b & Hloop & Hverdict).
  { destruct (truthy vu) eqn:Htu.
    - exists s1, true. split; [done|]. unfold cached_verdict.
      by rewrite Hcu, Htu.
    - destruct (_get_object_permission env perm u obj SrcGroup s1)
        as [[vg|e] s2] eqn:Hgroup; [|done].
      exists s2, (truthy vg || (is_None vu && is_None vg)).
      split; [done|]. unfold cached_verdict.
      rewrite (resolve_keeps u perm obj SrcGroup s1 _ _ _ _ Hgroup Hcu), Htu.
      by rewrite (resolve_caches env u perm obj SrcGroup s1 vg s2 Hu Hgroup). }
  destruct (IH _ _ Hloop) as [Hsome Hiff].
  assert (Hfinal : cached_verdict (cache_of st') perm obj = Some b).
  { eapply cached_verdict_mono; [|exact Hverdict].
    intros k v. by eapply collect_keeps. }
  split.
  - intros p [->|Hp]%elem_of_cons; [by rewrite Hfinal | by apply Hsome].
  - intros p. rewrite Hiff, elem_of_cons. destruct b.
    + rewrite elem_of_union, elem_of_singleton. split.
      * intros [[->|?]|[? ?]]; [right|left|right]; auto.
      * intros [?|[[->|?] ?]]; auto.
    + split.
      * intros [?|[? ?]]; [left|right]; auto.
      * intros [?|[[->|?] ?]]; [auto|congruence|auto].
Qed.

(** X8.  The list agrees with [has_perm].  Once the unfiltered list of a
    principal has been computed by the loop (an active principal that is
    not anonymous and not a superuser outside universal enforcement),
    [has_perm] on the same user instance answers every permission of the
    catalogue from the dictionary, changes nothing, and grants exactly the
    permissions in the list. *)
Theorem list_agrees_with_has_perm (u : User) obj st perms st' :
  is_active u = true →
  is_anonymous u = false →
  is_superuser u && negb (DJEM_UNIVERSAL_OLP env) = false →
  get_all_permissions env u (Some obj) st = (Ret perms, st') →
  ∀ p, p ∈ perms_for_model env obj →
    ∃ v, has_perm env u p (Some obj) st' = (Ret v, st')
         ∧ (truthy v = true ↔ p ∈ perms).
Proof.
  intros Hu Hanon Hsuper. unfold get_all_permissions, _get_object_permissions.
  rewrite Hu, Hanon, Hsuper. simpl. intros Hloop p Hp.
  destruct (collect_all_verdicts u obj _ _ _ _ _ Hu Hloop) as [Hsome Hiff].
  destruct (Hsome p Hp) as [b Hb].
  destruct (has_perm_from_cache u p obj st' b Hu Hb) as (v & Hrun & Hv).
  exists v. split; [done|]. rewrite Hv, Hiff. split.
  - intros ->. by right.
  - intros [Hempty|[_ Htrue]]; [by apply not_elem_of_empty in Hempty|].
    congruence.
Qed.

Lemma other_source_cache_name src perm perm' (k k' : pyval) :
  perm_cache_name (other_source src) perm' k' ≠ perm_cache_name src perm k.
Proof.
  destruct src; simpl;
    [apply not_eq_sym|]; apply perm_cache_name_sources.
Qed.

Lemma other_source_fn_name src perm perm' :
  access_fn_name (other_source src) perm' ≠ access_fn_name src perm.
Proof.
  destruct src; unfold access_fn_name;
    cbv [String.append from_name_str other_source]; congruence.
Qed.

Lemma collect_one_frame (u : User) obj src todo acc st r st' :
  collect_perms env u obj (Some src) todo acc st = (r, st') →
  (∀ perm k, cache_of st' !! perm_cache_name (other_source src) perm k
             = cache_of st !! perm_cache_name (other_source src) perm k)
  ∧ (∀ perm, invocations (access_fn_name (other_source src) perm) (trace st')
             = invocations (access_fn_name (other_source src) perm) (trace st)).
Proof.
  revert acc st. induction todo as [|perm todo IH]; intros acc st.
  { by intros [= <- <-]. }
  rewrite collect_one_step.
  destruct (_get_object_permission env perm u obj src st)
    as [[v|e] s1] eqn:Hsrc.
  all: assert (Hone :
    (∀ perm' k, cache_of s1 !! perm_cache_name (other_source src) perm' k
                = cache_of st !! perm_cache_name (other_source src) perm' k)
    ∧ (∀ perm', invocations (access_fn_name (other_source src) perm') (trace s1)
                = invocations (access_fn_name (other_source src) perm')
                    (trace st))).
  1,3: split;
    [ intros perm' k;
      apply (resolve_frame env u perm obj src st _ s1 _ Hsrc),
        other_source_cache_name
    | intros perm';
      destruct (resolve_trace env u perm obj src st _ s1 Hsrc)
        as (evs & -> & Hcount);
      rewrite invocations_app;
      specialize (Hcount (access_fn_name (other_source src) perm'));
      rewrite bool_decide_eq_false_2 in Hcount
        by apply other_source_fn_name; lia ].
  - intros Hrest. destruct (IH _ _ Hrest) as [Hc Ht]. destruct Hone as [Hc1 Ht1].
    split; [intros perm' k; by rewrite Hc, Hc1
           |intros perm'; by rewrite Ht, Ht1].
  - by intros [= <- <-].
Qed.

(** X9.  A filtered list leaves the other source alone: the list of user
    permissions stores no group decision and invokes no group method, and
    the list of group permissions stores no user decision and invokes no
    user method, however the call ends. *)
Theorem filtered_list_leaves_other_source (u : User) obj src st :
  let st' := (_get_object_permissions env u obj (Some src) st).2 in
  (∀ perm k, cache_of st' !! perm_cache_name (other_source src) perm k
             = cache_of st !! perm_cache_name (other_source src) perm k)
  ∧ (∀ perm, invocations (access_fn_name (other_source src) perm) (trace st')
             = invocations (access_fn_name (other_source src) perm) (trace st)).
Proof.
  unfold _get_object_permissions. destruct obj as [entity|]; [|done].
  destruct (negb (is_active u) || is_anonymous u); [done|].
  destruct (is_superuser u && negb (DJEM_UNIVERSAL_OLP env)); [done|].
  destruct (collect_perms env u entity (Some src) (perms_for_model env entity)
              ∅ st) as [r st'] eqn:Hloop.
  by eapply collect_one_frame.
Qed.

End Lists.

(** ** Entities without access methods *)

Lemma string_length_app (a b : string) :
  String.length (a +:+ b) = String.length a + String.length b.
Proof.
  induction a as [|c a IH]; [done|].
  change (String c a +:+ b) with (String c (a +:+ b)). simpl. by rewrite IH.
Qed.

Lemma string_app_inv_tail (a b s : string) : a +:+ s = b +:+ s → a = b.
Proof.
  revert b. induction a as [|c a IH]; intros [|c' b] Heq; [done| | |].
  - apply (f_equal String.length) in Heq.
    rewrite !string_length_app in Heq. simpl in Heq. lia.
  - apply (f_equal String.length) in Heq.
    rewrite !string_length_app in Heq. simpl in Heq. lia.
  - change (String c a +:+ s) with (String c (a +:+ s)) in Heq.
    change (String c' b +:+ s) with (String c' (b +:+ s)) in Heq.
    injection Heq as -> Heq. by rewrite (IH b Heq).
Qed.

(** The keys of one entity tell sources and permissions apart. *)
Lemma perm_cache_name_same_entity src perm src' perm' (k : pyval) :
  perm_cache_name src perm k = perm_cache_name src' perm' k →
  src = src' ∧ perm = perm'.
Proof.
  intros Heq.
  assert (src = src') as <-.
  { destruct src, src'; try done;
      exfalso; revert Heq; unfold perm_cache_name;
      cbv [String.append from_name_str]; congruence. }
  split; [done|]. unfold perm_cache_name in Heq.
  apply String.app_inj, String.app_inj in Heq.
  by apply string_app_inv_tail in Heq.
Qed.

Section NoAccessMethods.
Context (env : Env) (u : User) (obj : Entity) (held : string → bool).
Hypothesis Hactive : is_active u = true.
Hypothesis Hnone : attrs obj = ∅.
Hypothesis Hheld : ∀ p d, holds_model_perm env u p d = held p.

(** What a source decides for such an entity: no opinion with the
    model-level permission, a refusal without. *)
Let expected (p : string) : pyval := if held p then VNone else VBool false.

Let settled (c : gmap string pyval) : Prop :=
  ∀ src p v, c !! perm_cache_name src p (pk obj) = Some v → v = expected p.

Lemma resolve_settled src p st :
  settled (cache_of st) →
  ∃ st', _get_object_permission env p u obj src st = (Ret (expected p), st')
         ∧ settled (cache_of st').
Proof.
  intros Hst.
  destruct (cache_of st !! perm_cache_name src p (pk obj)) as [v|] eqn:Hk.
  - exists st. rewrite (resolve_hit env u p obj src st v Hactive Hk).
    by rewrite (Hst src p v Hk).
  - rewrite (resolve_miss env u p obj src st Hactive Hk), Hheld, Hnone.
    rewrite lookup_empty. unfold expected.
    destruct (held p) eqn:Hp; simpl; eexists; (split; [done|]).
    all: intros src' p' v; unfold computed, cache_of at 1; simpl.
    all: destruct (decide (perm_cache_name src p (pk obj)
                           = perm_cache_name src' p' (pk obj))) as [Heq|Hne];
      [ rewrite <- Heq, lookup_insert_eq;
        apply perm_cache_name_same_entity in Heq as [_ <-];
        intros [= <-]; unfold expected; by rewrite Hp
      | rewrite lookup_insert_ne by done; apply Hst ].
Qed.

Lemma collect_settled from_name todo acc st :
  settled (cache_of st) →
  ∃ perms st',
    collect_perms env u obj from_name todo acc st = (Ret perms, st')
    ∧ ∀ p, p ∈ perms ↔ p ∈ acc ∨ (p ∈ todo ∧ held p = true).
Proof.
  revert acc st. induction todo as [|perm todo IH]; intros acc st Hst.
  { exists acc, st. split; [done|]. intros p. split; [by left|].
    intros [?|[Hp _]]; [done | by apply not_elem_of_nil in Hp]. }
  assert (Hround : ∃ s2,
    settled (cache_of s2)
    ∧ collect_perms env u obj from_name (perm :: todo) acc st
      = collect_perms env u obj from_name todo
          (if held perm then {[perm]} ∪ acc else acc) s2).
  { destruct from_name as [src|].
    - destruct (resolve_settled src perm st Hst) as (s1 & Hrun & Hs1).
      exists s1. split; [done|]. rewrite collect_one_step, Hrun.
      unfold expected. by destruct (held perm).
    - destruct (resolve_settled SrcUser perm st Hst) as (s1 & Hrun & Hs1).
      destruct (resolve_settled SrcGroup perm s1 Hs1) as (s2 & Hrun2 & Hs2).
      exists s2. split; [done|]. rewrite collect_all_step, Hrun.
      unfold expected in *. destruct (held perm); simpl; by rewrite Hrun2. }
  destruct Hround as (s2 & Hs2 & ->).
  destruct (IH (if held perm then {[perm]} ∪ acc else acc) s2 Hs2)
    as (perms & st' & Hloop & Hiff).
  exists perms, st'. split; [done|]. intros p. rewrite Hiff, elem_of_cons.
  destruct (held perm) eqn:Hperm.
  - rewrite elem_of_union, elem_of_singleton. split.
    + intros [[->|?]|[? ?]]; [right|left|right]; auto.
    + intros [?|[[->|?] ?]]; auto.
  - split.
    + intros [?|[? ?]]; [left|right]; auto.
    + intros [?|[[->|?] ?]]; [auto|congruence|auto].
Qed.

(** X10.  An entity without access methods falls back on the model: for
    an active principal that is not anonymous and does not take the
    superuser branch, starting from an empty dictionary, each of the three
    lists is returned, and holds exactly the permissions of the catalogue
    that the principal holds at the model level. *)
Theorem no_access_methods_model_level from_name st :
  is_anonymous u = false →
  is_superuser u && negb (DJEM_UNIVERSAL_OLP env) = false →
  cache_of st = ∅ →
  ∃ perms st',
    _get_object_permissions env u (Some obj) from_name st = (Ret perms, st')
    ∧ ∀ p, p ∈ perms ↔ p ∈ perms_for_model env obj ∧ held p = true.
Proof.
  intros Hanon Hsuper Hempty. unfold _get_object_permissions.
  rewrite Hactive, Hanon, Hsuper. simpl.
  destruct (collect_settled from_name (perms_for_model env obj) ∅ st)
    as (perms & st' & Hloop & Hiff).
  { intros src p v. by rewrite Hempty, lookup_empty. }
  exists perms, st'. split; [done|]. intros p. rewrite Hiff. split.
  - intros [Hin|?]; [by apply not_elem_of_empty in Hin | done].
  - by right.
Qed.

End NoAccessMethods.

(** * The view guards *)

Section Guards.
Context (deps : Views.Deps).

(** [require] leaves the keyword arguments alone. *)
Lemma require_kwargs perm obj w r w' :
  Views.require deps perm obj w = (r, w') → w'.1 = w.1.
Proof.
  unfold Views.require.
  destruct (Views.user_has_perm deps perm obj w.2) as [[v|e] st'];
    [destruct (truthy v)|]; by intros [= <- <-].
Qed.

(** X11.  An unknown permission on an object lets nobody through: when one
    of the requirements names such a permission, [_check_perms] never
    returns normally, whatever [user.has_perm] answers, so
    [has_permission] is never true and neither guard calls the view. *)
Theorem unknown_permission_blocks_view perms perm obj_arg w :
  Views.OnObject perm obj_arg ∈ perms →
  Views.unknown deps perm →
  (∀ w', Views._check_perms deps perms w ≠ (Ret tt, w'))
  ∧ (∀ w', Views.has_permission deps perms w ≠ (Ret true, w'))
  ∧ (∀ kw w' urls login_url raise_exception request,
       Views._wrapped_view deps urls perms login_url raise_exception request w
       ≠ (Ret (Views.ViewCalled kw), w'))
  ∧ (∀ kw w', Views.dispatch deps perms w ≠ (Ret (Views.ViewCalled kw), w')).
Proof.
  intros Hin Hunknown.
  assert (Hcheck : ∀ w', Views._check_perms deps perms w ≠ (Ret tt, w')).
  { revert w. induction perms as [|req perms IH]; intros w w'.
    { by apply not_elem_of_nil in Hin. }
    apply elem_of_cons in Hin as [<-|Hin]; simpl.
    - unfold Views.unknown in Hunknown.
      destruct (w.1 !! obj_arg); [|done].
      destruct (split_on "." perm) as [|a [|c [|? ?]]]; try done.
      by rewrite Hunknown.
    - destruct (Views.check_one deps req w) as [[[]|e] w1]; [|done].
      by apply IH. }
  split; [exact Hcheck|].
  unfold Views.dispatch, Views.has_permission, Views._wrapped_view.
  destruct (Views._check_perms deps perms w) as [[[]|e] w1] eqn:Hrun.
  { by destruct (Hcheck w1). }
  assert (Hredirect : ∀ urls login_url request kw,
    Views.login_redirect urls login_url request ≠ Views.ViewCalled kw).
  { intros urls login_url request kw. unfold Views.login_redirect.
    destruct (Views.urlparse urls _) as [? ?].
    by destruct (Views.urlparse urls _) as [? ?]. }
  split_and!.
  - intros w'. by destruct e.
  - intros kw w' urls login_url raise_exception request.
    destruct e, raise_exception; try done.
    intros [= Heq _]. by apply Hredirect in Heq.
  - intros kw w'. by destruct e.
Qed.

Lemma check_one_frame req w r w' a :
  Views.check_one deps req w = (r, w') →
  a ∉ Views.object_args [req] →
  w'.1 !! a = w.1 !! a.
Proof.
  destruct req as [perm|perm obj_arg]; simpl.
  - intros Hrun _. by rewrite (require_kwargs _ _ _ _ _ Hrun).
  - intros Hrun Ha%not_elem_of_cons. destruct Ha as [Ha _]. revert Hrun.
    destruct (w.1 !! obj_arg); [|by intros [= <- <-]].
    destruct (split_on "." perm) as [|x [|c [|? ?]]];
      try by intros [= <- <-].
    destruct (Views.get_permission deps x c); try by intros [= <- <-].
    destruct (Views.get_object_or_404 deps perm_obj k) as [obj|e];
      [|by intros [= <- <-]].
    intros Hrun. rewrite (require_kwargs _ _ _ _ _ Hrun). simpl.
    by rewrite lookup_insert_ne.
Qed.

Lemma check_one_instance perm obj_arg w w' :
  Views.check_one deps (Views.OnObject perm obj_arg) w = (Ret tt, w') →
  ∃ obj, w'.1 !! obj_arg = Some (Views.Instance obj).
Proof.
  simpl. destruct (w.1 !! obj_arg); [|done].
  destruct (split_on "." perm) as [|x [|c [|? ?]]]; try done.
  destruct (Views.get_permission deps x c); try done.
  destruct (Views.get_object_or_404 deps perm_obj k) as [obj|e]; [|done].
  intros Hrun. exists obj. rewrite (require_kwargs _ _ _ _ _ Hrun). simpl.
  by rewrite lookup_insert_eq.
Qed.

(** X12.  What [_check_perms] does to the keyword arguments of the view.
    However it ends, an argument that no object requirement names is left
    as it was; when it returns normally, every argument that an object
    requirement names holds an instance in place of the primary key. *)
Theorem check_perms_kwargs perms w r w' :
  Views._check_perms deps perms w = (r, w') →
  (∀ a, a ∉ Views.object_args perms → w'.1 !! a = w.1 !! a)
  ∧ (r = Ret tt →
     ∀ a, a ∈ Views.object_args perms →
          ∃ obj, w'.1 !! a = Some (Views.Instance obj)).
Proof.
  revert w. induction perms as [|req perms IH]; intros w.
  { intros [= <- <-]. split; [done|]. intros _ a Ha.
    by apply not_elem_of_nil in Ha. }
  simpl. destruct (Views.check_one deps req w) as [[[]|e] w1] eqn:Hone.
  - intros Hrest. destruct (IH w1 Hrest) as [Hframe Hinst]. split.
    + intros a Ha. rewrite Hframe.
      * apply (check_one_frame req w _ w1 a Hone).
        destruct req; simpl in *; [apply not_elem_of_nil|].
        apply not_elem_of_cons in Ha as [? _].
        by apply not_elem_of_cons; split; [|apply not_elem_of_nil].
      * destruct req; simpl in *; [done|].
        by apply not_elem_of_cons in Ha as [_ ?].
    + intros -> a Ha.
      destruct (decide (a ∈ Views.object_args perms)) as [Hin|Hout];
        [by apply Hinst|].
      rewrite Hframe by done.
      destruct req as [perm|perm obj_arg]; simpl in Ha; [done|].
      apply elem_of_cons in Ha as [->|?]; [|done].
      by eapply check_one_instance.
  - intros [= <- <-]. split; [|done]. intros a Ha.
    apply (check_one_frame req w _ w1 a Hone).
    destruct req; simpl in *; [apply not_elem_of_nil|].
    apply not_elem_of_cons in Ha as [? _].
    by apply not_elem_of_cons; split; [|apply not_elem_of_nil].
Qed.

(** X13.  The two guards agree with each other and pass failures on.  The
    decorator calls the view exactly when the mixin does, with the same
    keyword arguments and the same user instance; and an exception of
    [_check_perms] other than [PermissionDenied] (a missing keyword
    argument, an object that is not found, a failing access method)
    leaves both guards as it is, with [raise_exception] set or not. *)
Theorem guards_agree perms urls login_url raise_exception request w :
  (∀ kw w',
     Views._wrapped_view deps urls perms login_url raise_exception request w
     = (Ret (Views.ViewCalled kw), w')
     ↔ Views.dispatch deps perms w = (Ret (Views.ViewCalled kw), w'))
  ∧ (∀ e w', e ≠ PermissionDenied →
       Views._check_perms deps perms w = (Raise e, w') →
       Views._wrapped_view deps urls perms login_url raise_exception request w
       = (Raise e, w')
       ∧ Views.has_permission deps perms w = (Raise e, w')
       ∧ Views.dispatch deps perms w = (Raise e, w'))
  ∧ (∀ w', Views._check_perms deps perms w = (Raise PermissionDenied, w') →
       Views.has_permission deps perms w = (Ret false, w')
       ∧ Views.dispatch deps perms w = (Ret Views.NoPermission, w')
       ∧ Views._wrapped_view deps urls perms login_url raise_exception
           request w
         = if raise_exception then (Raise PermissionDenied, w')
           else (Ret (Views.login_redirect urls login_url request), w')).
Proof.
  unfold Views._wrapped_view, Views.dispatch, Views.has_permission.
  destruct (Views._check_perms deps perms w) as [[[]|e] w1].
  - split_and!; try done.
  - split_and!.
    + intros kw w'.
      assert (Views.login_redirect urls login_url request
              ≠ Views.ViewCalled kw) as Hredirect.
      { unfold Views.login_redirect.
        destruct (Views.urlparse urls _) as [? ?].
        by destruct (Views.urlparse urls _) as [? ?]. }
      destruct e, raise_exception; split; try done.
      intros [= Heq _]. by apply Hredirect in Heq.
    + intros e' w' Hne [= <- <-]. by destruct e.
    + by intros w' [= -> <-].
Qed.

End Guards.

(** * The further theorems at work *)

Lemma permissions_within_catalogue_witness :
  "app.delete" ∈ perms_for_model site book.
Proof.
  destruct (permissions_within_catalogue site alice (Some book) None
              OLPMixin_init {["app.view"; "app.delete"]}
              (get_all_permissions site alice (Some book) OLPMixin_init).2)
    with (p := "app.delete") as (entity & Heq & Hin).
  - vm_compute. reflexivity.
  - apply elem_of_union_r, elem_of_singleton_2. reflexivity.
  - by injection Heq as <-.
Defined.

Lemma cache_only_grows_witness :
  let st := (has_perm site alice "app.delete" (Some book) OLPMixin_init).2 in
  cache_of (get_all_permissions site alice (Some book) st).2
    !! "user-app.delete-7" = Some (VBool true).
Proof.
  intros st.
  destruct (cache_only_grows site alice st "user-app.delete-7" (VBool true))
    as (_ & _ & Hlist).
  - vm_compute. reflexivity.
  - apply (Hlist (Some book) None).
Defined.

Lemma list_agrees_with_has_perm_witness :
  let st' := (get_all_permissions site bob (Some book) OLPMixin_init).2 in
  ∃ v, has_perm site bob "app.change" (Some book) st' = (Ret v, st')
       ∧ truthy v = true.
Proof.
  intros st'.
  destruct (list_agrees_with_has_perm site bob book OLPMixin_init
              {["app.view"; "app.change"]} st' eq_refl eq_refl eq_refl)
    with (p := "app.change") as (v & Hrun & Hiff).
  - vm_compute. reflexivity.
  - vm_compute. repeat constructor.
  - exists v. split; [exact Hrun|]. apply Hiff.
    apply elem_of_union_r, elem_of_singleton_2. reflexivity.
Defined.

Lemma no_access_methods_model_level_witness :
  ∃ perms st',
    get_group_permissions site alice (Some leaflet) OLPMixin_init
    = (Ret perms, st')
    ∧ "app.change" ∈ perms.
Proof.
  destruct (no_access_methods_model_level site alice leaflet
              (λ p, holds_model_perm site alice p no_model_caches)
              eq_refl eq_refl (λ p d, eq_refl) (Some SrcGroup) OLPMixin_init
              eq_refl eq_refl eq_refl) as (perms & st' & Hrun & Hiff).
  exists perms, st'. split; [exact Hrun|]. apply Hiff. split.
  - vm_compute. repeat constructor.
  - vm_compute. reflexivity.
Defined.

Lemma unknown_permission_blocks_view_witness :
  ¬ ∃ w',
      Views.has_permission (Office.deps_for root)
        [Views.ByName "app.view"; Views.OnObject "app.book.delete" "pk"]
        Office.book_7
      = (Ret true, w').
Proof.
  destruct (unknown_permission_blocks_view (Office.deps_for root)
              [Views.ByName "app.view"; Views.OnObject "app.book.delete" "pk"]
              "app.book.delete" "pk" Office.book_7) as (_ & Hnever & _).
  - apply list_elem_of_further, list_elem_of_here.
  - exact I.
  - intros [w' Hrun]. exact (Hnever w' Hrun).
Defined.

Lemma check_perms_kwargs_witness :
  let w' := (Views._check_perms (Office.deps_for alice)
               [Views.OnObject "app.delete" "pk"] Office.book_7).2 in
  ∃ obj, w'.1 !! "pk" = Some (Views.Instance obj).
Proof.
  intros w'.
  destruct (check_perms_kwargs (Office.deps_for alice)
              [Views.OnObject "app.delete" "pk"] Office.book_7 (Ret tt) w')
    as [_ Hinstance].
  - vm_compute. reflexivity.
  - apply Hinstance; [reflexivity|]. apply list_elem_of_here.
Defined.

(** ** More scenarios *)

(** The owner reaches the view of book 7 with the instance in place of
    the key; another user is sent to the login page with the path of the
    request; a book that does not exist is a 404 for both. *)
Example guarded_view :
  (∃ kw w', Views._wrapped_view (Office.deps_for alice) Office.urls
              [Views.OnObject "app.delete" "pk"] None false Office.request
              Office.book_7 = (Ret (Views.ViewCalled kw), w')
            ∧ ∃ obj, kw !! "pk" = Some (Views.Instance obj) ∧ pk obj = VInt 7)
  ∧ (Views._wrapped_view (Office.deps_for bob) Office.urls
       [Views.OnObject "app.delete" "pk"] None false Office.request
       Office.book_7).1
    = Ret (Views.RedirectToLogin "/books/7/" "/login/")
  ∧ (Views._wrapped_view (Office.deps_for bob) Office.urls
       [Views.OnObject "app.delete" "pk"] None false Office.request
       ({["pk" := Views.FromUrl (VInt 9)]}, OLPMixin_init)).1
    = Raise (OtherError "Http404").
Proof.
  split; [|split; vm_compute; reflexivity].
  eexists _, _. split; [vm_compute; reflexivity|].
  eexists. split; [vm_compute; reflexivity|reflexivity].
Qed.

(** * Further properties of the backend *)

(** X14.  After [clear_perm_cache] every decision is computed again:
    whether the call completed or raised on a missing model-level cache,
    the next resolution of an active principal, for any source,
    permission and entity, begins with the model-level lookup. *)
Theorem cleared_cache_recomputes (env : Env) (u : User) perm obj src st :
  is_active u = true →
  ∃ r st' evs,
    _get_object_permission env perm u obj src (clear_perm_cache st).2
    = (r, st')
    ∧ trace st' = trace st ++ EvHasPerm perm :: evs.
Proof.
  intros Hu.
  assert (Htrace : trace (clear_perm_cache st).2 = trace st).
  { unfold clear_perm_cache. run.
    by destruct (model_caches st) as [[?|] [?|] [?|]]. }
  rewrite (resolve_miss env u perm obj src _ Hu)
    by (by rewrite clear_perm_cache_resets, lookup_empty).
  unfold computed. rewrite Htrace.
  destruct (holds_model_perm env u perm _); simpl; [|by eexists _, _, _].
  destruct (attrs obj !! access_fn_name src perm) as [fn|];
    [|by eexists _, _, _].
  destruct (fn (access_arg src u)) as [v|[]]; by eexists _, _, _.
Qed.

(** X15.  For one entity the keys tell every source and permission
    apart, whatever characters the permission names and the primary key
    contain: two keys built with the same primary key are equal only for
    the same source and the same permission. *)
Theorem one_entity_keys_distinct src perm src' perm' (k : pyval) :
  perm_cache_name src perm k = perm_cache_name src' perm' k →
  src = src' ∧ perm = perm'.
Proof. apply perm_cache_name_same_entity. Qed.

(** X16.  The action in the name of an access method is what follows the
    last dot of the permission, and the whole permission when it has no
    dot; a permission with several dots is accepted. *)
Theorem action_code_is_last_segment (src : source) (action : string) :
  free_of "." action = true →
  action_code action = action
  ∧ (∀ prefix, action_code (prefix +:+ "." +:+ action) = action)
  ∧ (∀ prefix,
       access_fn_name src (prefix +:+ "." +:+ action)
       = access_fn_name src action).
Proof.
  intros Hfree.
  assert (Hplain : action_code action = action).
  { unfold action_code. by rewrite split_on_free. }
  assert (Hlast : ∀ prefix, action_code (prefix +:+ "." +:+ action) = action).
  { intros prefix. by apply action_code_last. }
  split; [done|]. split; [done|]. intros prefix. unfold access_fn_name.
  by rewrite Hlast, Hplain.
Qed.

Lemma cleared_cache_recomputes_witness :
  let st := (has_perm site alice "app.delete" (Some book) OLPMixin_init).2 in
  ∃ r st' evs,
    _get_object_permission site "app.delete" alice book SrcUser
      (clear_perm_cache st).2 = (r, st')
    ∧ trace st' = trace st ++ EvHasPerm "app.delete" :: evs.
Proof.
  intros st.
  apply (cleared_cache_recomputes site alice "app.delete" book SrcUser st).
  reflexivity.
Defined.

Lemma one_entity_keys_distinct_witness :
  SrcGroup = SrcGroup ∧ "app.x-" = "app.x-".
Proof.
  apply (one_entity_keys_distinct SrcGroup "app.x-" SrcGroup "app.x-"
           (VInt (-1))).
  reflexivity.
Defined.

Lemma action_code_is_last_segment_witness :
  action_code "delete" = "delete"
  ∧ access_fn_name SrcUser "shop.app.delete" = "_user_can_delete".
Proof.
  destruct (action_code_is_last_segment SrcUser "delete" eq_refl)
    as (Hplain & _ & Hname).
  split; [exact Hplain|]. apply (Hname "shop.app").
Defined.
